(** * PageRank (pagerank.py): transition model, sampling and iteration

    A shallow embedding of [transition_model], [sample_pagerank],
    [iterate_pagerank] and [check_dict] of [pagerank.py], together with
    the properties stated about them.

    Conventions of the embedding.
    - A Python [dict] keeps its keys in insertion order and the
      convergence check pairs entries by position, so a dict is an
      association list in insertion order.
    - A Python [set] of page names is a list of pages.
    - Python numbers ([int] and [float]) are read as exact rationals:
      rounding is not part of the model.  [0.85] is [85/100],
      [0.001] is [1/1000].
    - A Python exception is a value of [exn]; a function that can raise
      returns a [result]. *)

From Stdlib Require Import List String Bool Arith ZArith QArith Qabs Qround.
From Stdlib Require Import Lia Lqa Permutation Setoid Morphisms.
Import ListNotations.

Local Open Scope Q_scope.

(** ** Exceptions and results *)

Inductive exn : Type :=
| KeyError
| IndexError
| ZeroDivisionError
| ValueError.

Inductive result (A : Type) : Type :=
| Returns (a : A)
| Raises (e : exn).

Arguments Returns {A} a.
Arguments Raises {A} e.

Definition bind {A B : Type} (m : result A) (k : A -> result B) : result B :=
  match m with
  | Returns a => k a
  | Raises e => Raises e
  end.

Notation "x <- m ;; k" := (bind m (fun x => k))
  (at level 61, m at next level, right associativity).

(** [ValueError] is Python's error for an argument of the right type
    and a wrong value. *)
Definition invalid_argument (e : exn) : Prop := e = ValueError.

(** ** Pages and dicts *)

Definition page : Type := string.

Definition page_eqb (a b : page) : bool := String.eqb a b.

Definition dict (V : Type) : Type := list (page * V).

Definition keys {V : Type} (d : dict V) : list page := map fst d.

Definition values {V : Type} (d : dict V) : list V := map snd d.

(** [d[k]], raising [KeyError] when [k] is absent. *)
Fixpoint dict_get {V : Type} (d : dict V) (k : page) : result V :=
  match d with
  | [] => Raises KeyError
  | (k', v) :: d' => if page_eqb k k' then Returns v else dict_get d' k
  end.

(** [d[k] = v]: the value of an existing key is replaced where it
    stands, a new key is added at the end. *)
Fixpoint dict_set {V : Type} (d : dict V) (k : page) (v : V) : dict V :=
  match d with
  | [] => [(k, v)]
  | (k', v') :: d' =>
      if page_eqb k k' then (k', v) :: d' else (k', v') :: dict_set d' k v
  end.

(** [dict.fromkeys(ks, v)]. *)
Definition fromkeys {V : Type} (ks : list page) (v : V) : dict V :=
  fold_left (fun acc k => dict_set acc k v) ks [].

(** [k in s] for a set of pages. *)
Definition mem (k : page) (s : list page) : bool := existsb (page_eqb k) s.

(** [len(x)] as a number. *)
Definition len {A : Type} (l : list A) : Q := inject_Z (Z.of_nat (List.length l)).

(** [sum(xs)]: Python starts from [0] and adds from the left. *)
Definition sum (xs : list Q) : Q := fold_left Qplus xs 0.

(** [a / b], raising [ZeroDivisionError] when [b] is zero. *)
Definition pydiv (a b : Q) : result Q :=
  if Qeq_bool b 0 then Raises ZeroDivisionError else Returns (a / b).

(** A corpus maps every page to the set of pages it links to. *)
Definition corpus_t : Type := dict (list page).

(** ** [transition_model]

    The divisions of this function cannot raise: [k + 1] is positive,
    [damping_factor / page_links_number] is evaluated only in the branch
    where [page_links_number] is not zero, and [1.0 / corpus_pages] only
    after [corpus[page]] succeeded, so that the corpus has a page. *)
Definition transition_model (corpus : corpus_t) (pg : page) (damping_factor : Q)
  : result (dict Q) :=
  links <- dict_get corpus pg ;;
  let page_links_number := List.length links in
  let corpus_pages := len corpus in
  if Nat.eqb page_links_number 0 then
    Returns (fold_left (fun pages_prob corpus_page =>
                          dict_set pages_prob corpus_page (1 / corpus_pages))
                       (keys corpus) [])
  else
    let starting_prob := (1 - damping_factor) / (len links + 1) in
    let pages_prob := fromkeys (keys corpus) starting_prob in
    Returns (fold_left (fun pages_prob link =>
                          dict_set pages_prob link
                            (starting_prob + damping_factor / len links))
                       links pages_prob).

(** The graph of [playground.py]. *)
Definition pages : corpus_t :=
  [ ("1.html", ["2.html"; "3.html"]);
    ("2.html", ["3.html"]);
    ("3.html", ["2.html"]);
    ("4.html", []) ]%string.

Definition DAMPING : Q := 85 # 100.
Definition SAMPLES : Z := 10000.

(** ** [check_dict] *)

(** [a > b] on numbers. *)
Definition Qgtb (a b : Q) : bool := negb (Qle_bool a b).

(** The loop of [check_dict] over the pairs [zip] yields. *)
Fixpoint check_pairs (ps : list ((page * Q) * (page * Q))) : bool :=
  match ps with
  | [] => true
  | ((k1, v1), (k2, v2)) :: ps' =>
      if page_eqb k1 k2 then
        if Qgtb (v1 - v2) (1 # 1000) then false else check_pairs ps'
      else check_pairs ps'
  end.

Definition check_dict (new_dict old_dict : dict Q) : bool :=
  check_pairs (combine new_dict old_dict).

(** ** [iterate_pagerank] *)

(** A [for] loop whose body can raise. *)
Fixpoint foldM {A B : Type} (f : B -> A -> result B) (l : list A) (b : B)
  : result B :=
  match l with
  | [] => Returns b
  | a :: l' => b' <- f b a ;; foldM f l' b'
  end.

(** The inner loop: [links_sum] for one page.  Both divisions are
    guarded: a set that holds [page] is not empty, and the loop runs
    only over a corpus that has a page. *)
Definition links_sum (corpus : corpus_t) (num_pages : Q) (pagerank : dict Q)
  (pg : page) : result Q :=
  foldM (fun links_sum link =>
           links <- dict_get corpus link ;;
           if mem pg links then
             r <- dict_get pagerank link ;;
             Returns (links_sum + r / len links)
           else if Nat.eqb (List.length links) 0 then
             r <- dict_get pagerank link ;;
             Returns (links_sum + r / num_pages)
           else Returns links_sum)
        (keys corpus) 0.

(** The outer loop: the new rank of every page, before normalization. *)
Definition new_ranks (corpus : corpus_t) (damping_factor num_pages : Q)
  (pagerank : dict Q) : result (dict Q) :=
  foldM (fun new_pagerank pg =>
           s <- links_sum corpus num_pages pagerank pg ;;
           Returns (dict_set new_pagerank pg
                      ((1 - damping_factor) / num_pages + damping_factor * s)))
        (keys corpus) [].

(** "Normalize to ensure sum to 1": every value is overwritten in place
    by its product with [1.0 / sum(values)]. *)
Definition normalize (d : dict Q) : result (dict Q) :=
  total_inverse <- pydiv 1 (sum (values d)) ;;
  Returns (fold_left (fun acc kv => dict_set acc (fst kv) (snd kv * total_inverse))
             d d).

(** One pass of the [while] loop up to the convergence check. *)
Definition step (corpus : corpus_t) (damping_factor num_pages : Q)
  (pagerank : dict Q) : result (dict Q) :=
  new_pagerank <- new_ranks corpus damping_factor num_pages pagerank ;;
  normalize new_pagerank.

(** The [while] loop, with a bound on the number of passes: [None]
    means that the bound was reached, [Some r] that the loop ended by
    [return] or by an exception. *)
Fixpoint iterate_loop (fuel : nat) (corpus : corpus_t)
  (damping_factor num_pages : Q) (pagerank : dict Q)
  : option (result (dict Q)) :=
  match fuel with
  | O => None
  | S fuel' =>
      match step corpus damping_factor num_pages pagerank with
      | Raises e => Some (Raises e)
      | Returns new_pagerank =>
          if check_dict new_pagerank pagerank then Some (Returns pagerank)
          else iterate_loop fuel' corpus damping_factor num_pages new_pagerank
      end
  end.

(** The ranks [iterate_pagerank] starts from. *)
Definition initial_ranks (corpus : corpus_t) : result (dict Q) :=
  r <- pydiv 1 (len corpus) ;;
  Returns (fromkeys (keys corpus) r).

Definition iterate_pagerank (fuel : nat) (corpus : corpus_t)
  (damping_factor : Q) : option (result (dict Q)) :=
  match initial_ranks corpus with
  | Raises e => Some (Raises e)
  | Returns pagerank =>
      iterate_loop fuel corpus damping_factor (len corpus) pagerank
  end.

(** ** The random source

    [sample_pagerank] draws from Python's [random] module.  The source
    is a stream: [rnd i] is the value of the [i]-th call of
    [random.random()], a number in [[0, 1)].  [random.choice] and
    [random.choices] follow the standard library: [choice] indexes the
    sequence with a number below its length and raises [IndexError] on
    an empty sequence; [choices] accumulates the weights, rejects a
    total that is not positive with [ValueError], and bisects the
    cumulative weights at [random() * total]. *)

Definition rng : Type := nat -> Q.

Definition uniform (rnd : rng) : Prop := forall i, 0 <= rnd i /\ rnd i < 1.

Definition choice (rnd : rng) (i : nat) (seq : list page) : result page :=
  match nth_error seq (Z.to_nat (Qfloor (rnd i * len seq))) with
  | Some p => Returns p
  | None => Raises IndexError
  end.

Fixpoint accumulate_from (t : Q) (ws : list Q) : list Q :=
  match ws with
  | [] => []
  | w :: ws' => (t + w) :: accumulate_from (t + w) ws'
  end.

(** [itertools.accumulate]. *)
Definition accumulate (ws : list Q) : list Q :=
  match ws with
  | [] => []
  | w :: ws' => w :: accumulate_from w ws'
  end.

(** [bisect.bisect_right(a, x, lo, hi)]; [hi - lo] halves at every
    turn, so [fuel = hi] turns are enough. *)
Fixpoint bisect (fuel : nat) (a : list Q) (x : Q) (lo hi : nat) : nat :=
  match fuel with
  | O => lo
  | S fuel' =>
      if Nat.ltb lo hi then
        let mid := ((lo + hi) / 2)%nat in
        if Qgtb (nth mid a 0) x then bisect fuel' a x lo mid
        else bisect fuel' a x (S mid) hi
      else lo
  end.

(** [random.choices(population, weights=weights, k=1)[0]]. *)
Definition choices (rnd : rng) (i : nat) (population : list page)
  (weights : list Q) : result page :=
  let cum_weights := accumulate weights in
  if negb (Nat.eqb (List.length cum_weights) (List.length population)) then
    Raises ValueError
  else
    match rev cum_weights with
    | [] => Raises IndexError
    | total :: _ =>
        if Qle_bool total 0 then Raises ValueError
        else
          let hi := (List.length population - 1)%nat in
          match nth_error population
                  (bisect hi cum_weights (rnd i * total) 0 hi) with
          | Some p => Returns p
          | None => Raises IndexError
          end
    end.

(** ** [sample_pagerank] *)

(** The [for _ in range(0, n)] loop; [i] counts the draws made so far. *)
Fixpoint sample_loop (rnd : rng) (steps i : nat) (corpus : corpus_t)
  (damping_factor : Q) (sample_pagerank_dict : dict Q) (random_page : page)
  : result (dict Q) :=
  match steps with
  | O => Returns sample_pagerank_dict
  | S steps' =>
      model <- transition_model corpus random_page damping_factor ;;
      c <- dict_get sample_pagerank_dict random_page ;;
      let sample_pagerank_dict' :=
        dict_set sample_pagerank_dict random_page (c + 1) in
      let prob_values := values model in
      next_page <- choices rnd i (keys model) prob_values ;;
      sample_loop rnd steps' (S i) corpus damping_factor
        sample_pagerank_dict' next_page
  end.

Definition sample_pagerank (rnd : rng) (corpus : corpus_t)
  (damping_factor : Q) (n : Z) : result (dict Q) :=
  let sample_pagerank_dict := fromkeys (keys corpus) 0 in
  random_page <- choice rnd 0 (keys corpus) ;;
  counts <- sample_loop rnd (Z.to_nat n) 1 corpus damping_factor
              sample_pagerank_dict random_page ;;
  normalize counts.

(** ** [crawl]

    The directory is given by what [os.listdir] and [open(...).read()]
    yield for it: the list of its entries, each a file name with the
    contents of the file.  [re.findall] with the pattern of [crawl] is
    a parameter, [findall]: it maps the contents of a file to the list
    of the [href] targets found in it. *)

(** [s.endswith(suffix)]. *)
Definition endswith (s suffix : string) : bool :=
  let n := String.length s in
  let m := String.length suffix in
  Nat.leb m n && String.eqb (substring (n - m) m s) suffix.

(** [set(links)]: the elements of [links], each once. *)
Definition to_set (links : list page) : list page := nodup string_dec links.

(** The first loop of [crawl]: every [.html] file is entered with the
    set of its links, less the file itself. *)
Definition crawl_extract (findall : string -> list page)
  (directory : list (string * string)) : corpus_t :=
  fold_left (fun pages entry =>
               let filename := fst entry in
               let contents := snd entry in
               if negb (endswith filename ".html") then pages
               else
                 let links := findall contents in
                 dict_set pages filename
                   (filter (fun link => negb (page_eqb link filename))
                      (to_set links)))
            directory [].

(** The second loop of [crawl]: only links to pages of the corpus are
    kept. *)
Definition crawl_restrict (pages : corpus_t) : result corpus_t :=
  foldM (fun pages filename =>
           links <- dict_get pages filename ;;
           Returns (dict_set pages filename
                      (filter (fun link => mem link (keys pages)) links)))
        (keys pages) pages.

Definition crawl (findall : string -> list page)
  (directory : list (string * string)) : result corpus_t :=
  crawl_restrict (crawl_extract findall directory).

(** The names of the [.html] files of a directory, in its order. *)
Definition html_files (directory : list (string * string)) : list page :=
  map fst (filter (fun entry => endswith (fst entry) ".html") directory).

(** ** Well-formed inputs *)

(** The keys of a dict are pairwise distinct. *)
Definition wf_dict {V : Type} (d : dict V) : Prop := NoDup (keys d).

(** The values of a corpus are sets: no page occurs twice in one. *)
Definition wf_sets (corpus : corpus_t) : Prop :=
  forall k ls, In (k, ls) corpus -> NoDup ls.

(** The Graph invariant: every link target is a key of the graph. *)
Definition graph_invariant (corpus : corpus_t) : Prop :=
  forall k ls, In (k, ls) corpus -> incl ls (keys corpus).

(** Two dicts with the same keys in the same order and equal numbers
    as values. *)
Definition dict_Qeq (d1 d2 : dict Q) : Prop :=
  Forall2 (fun a b => fst a = fst b /\ snd a == snd b) d1 d2.

(** ** Definitions used by the statements *)


(** A distribution sums to one within the tolerance [1e-9]. *)
Definition sums_to_one (d : dict Q) : Prop :=
  Qabs (sum (values d) - 1) <= 1 # 1000000000.

(** The sum of [f] over a list of pages. *)
Definition total (f : page -> Q) (ks : list page) : Q :=
  fold_right (fun k s => f k + s) 0 ks.

(** The check the specification asks for: pages are matched by key and
    the absolute difference is compared. *)
Definition spec_converged (new_dict old_dict : dict Q) : Prop :=
  forall k v1 v2,
    dict_get new_dict k = Returns v1 ->
    dict_get old_dict k = Returns v2 ->
    Qabs (v1 - v2) <= 1 # 1000.

(** The same pairs, matched by key instead of by position. *)
Definition check_by_key (new_dict old_dict : dict Q) : bool :=
  forallb (fun kv =>
             match dict_get old_dict (fst kv) with
             | Returns v2 => negb (Qgtb (snd kv - v2) (1 # 1000))
             | Raises _ => true
             end) new_dict.

(** Two rank mappings over five pages, each summing to one; from the
    old to the new one page A falls by 0.002 and the others rise by
    0.0005. *)
Definition ranks_new : dict Q :=
  [ ("A", 0.198); ("B", 0.2005); ("C", 0.2005); ("D", 0.2005); ("E", 0.2005) ]%string.
Definition ranks_old : dict Q :=
  [ ("A", 0.2); ("B", 0.2); ("C", 0.2); ("D", 0.2); ("E", 0.2) ]%string.

(** The inner loop of [iterate_pagerank] over the links sets and the
    ranks of the pages of the corpus. *)
Fixpoint lsum (es : list (list page * Q)) (N : Q) (p : page) (acc : Q) : Q :=
  match es with
  | [] => acc
  | (ls, r) :: es' =>
      lsum es' N p
        (if mem p ls then acc + r / len ls
         else if Nat.eqb (List.length ls) 0 then acc + r / N
         else acc)
  end.

(** The mappings held by [pagerank] at the head of a pass of the
    [while] loop. *)
Inductive run (c : corpus_t) (d : Q) : dict Q -> Prop :=
| run_init pr : initial_ranks c = Returns pr -> run c d pr
| run_next pr new :
    run c d pr ->
    step c d (len c) pr = Returns new ->
    check_dict new pr = false ->
    run c d new.

(** A corpus of two pages and a damping factor at which the first pass
    already converges. *)
Definition graph_AB : corpus_t := [ ("A", ["B"]); ("B", []) ]%string.

(** The set of pages [q] links to, and the rank of [q]. *)
Definition outlinks (c : corpus_t) (q : page) : list page :=
  match dict_get c q with
  | Returns ls => ls
  | Raises _ => []
  end.

Definition rank (pr : dict Q) (q : page) : Q :=
  match dict_get pr q with
  | Returns v => v
  | Raises _ => 0
  end.

(** [links_sum] as the specification words it: the sum over all pages
    [q] of [rank[q] / outdegree(q)] if [q] links to [p], or of
    [rank[q] / N] if [q] has no links. *)
Definition spec_links_sum (c : corpus_t) (pr : dict Q) (p : page) : Q :=
  total (fun q =>
           if mem p (outlinks c q) then rank pr q / len (outlinks c q)
           else if Nat.eqb (List.length (outlinks c q)) 0 then rank pr q / len c
           else 0)
        (keys c).


(** Two random sources: one that always yields 0, one that cycles
    through 0/7, 1/7, ..., 6/7. *)
Definition rnd_zero : rng := fun _ => 0.

Definition rnd_cycle : rng := fun i => inject_Z (Z.of_nat (i mod 7)) / 7.


(** The rank mapping that gives page [k] the rank [x k]. *)
Definition dict_of (c : corpus_t) (x : page -> Q) : dict Q :=
  map (fun k => (k, x k)) (keys c).

(** The share of the rank of [q] that goes to [p]. *)
Definition weight (c : corpus_t) (q p : page) : Q :=
  if mem p (outlinks c q) then 1 / len (outlinks c q)
  else if Nat.eqb (List.length (outlinks c q)) 0 then 1 / len c
  else 0.

(** The new rank of [p] as the loop computes it from the ranks [x],
    before and after normalization. *)
Definition raw (c : corpus_t) (d : Q) (x : page -> Q) (p : page) : Q :=
  (1 - d) / len c
  + d * lsum (combine (values c) (values (dict_of c x))) (len c) p 0.

Definition next (c : corpus_t) (d : Q) (x : page -> Q) (p : page) : Q :=
  raw c d x p * (1 / sum (values (dict_of c (raw c d x)))).

(** The distance of two rank mappings: the sum of the absolute
    differences. *)
Definition dist (c : corpus_t) (x y : page -> Q) : Q :=
  total (fun p => Qabs (x p - y p)) (keys c).

(** The ranks [x] add up to one and every page of the corpus has at
    least the rank [(1 - d) / N]. *)
Definition good_ranks (c : corpus_t) (d : Q) (x : page -> Q) : Prop :=
  total x (keys c) == 1
  /\ forall p, In p (keys c) -> (1 - d) / len c <= x p.

(** A directory of three files and the links found in each. *)
Definition directory_test : list (string * string) :=
  [ ("1.html", "one"); ("notes.txt", "none"); ("2.html", "two") ]%string.

Definition findall_test (contents : string) : list page :=
  if String.eqb contents "one"
  then [ "2.html"; "1.html"; "2.html"; "x.html" ]%string
  else [ "1.html"; "http://example.org" ]%string.

(** * Facts about dicts *)

Lemma page_eqb_eq (a b : page) : page_eqb a b = true <-> a = b.
Proof. apply String.eqb_eq. Qed.

Lemma page_eqb_refl (a : page) : page_eqb a a = true.
Proof. apply String.eqb_refl. Qed.

Lemma page_eqb_neq (a b : page) : page_eqb a b = false <-> a <> b.
Proof. apply String.eqb_neq. Qed.

Lemma mem_In (k : page) (s : list page) : mem k s = true <-> In k s.
Proof.
  unfold mem. rewrite existsb_exists. split.
  - intros [x [Hx Hk]]. apply page_eqb_eq in Hk. now subst.
  - intros H. exists k. split; [assumption | apply page_eqb_refl].
Qed.

Lemma keys_app {V : Type} (d1 d2 : dict V) : keys (d1 ++ d2) = keys d1 ++ keys d2.
Proof. apply map_app. Qed.

Lemma dict_set_absent {V : Type} (d : dict V) (k : page) (v : V) :
  ~ In k (keys d) -> dict_set d k v = d ++ [(k, v)].
Proof.
  induction d as [|[k' v'] d IH]; simpl; intros H; [reflexivity|].
  destruct (page_eqb k k') eqn:E.
  - apply page_eqb_eq in E. subst. exfalso. apply H. now left.
  - rewrite IH; [reflexivity|]. intros Hin. apply H. now right.
Qed.

Lemma dict_set_app {V : Type} (d1 d2 : dict V) (k : page) (v : V) :
  ~ In k (keys d1) -> dict_set (d1 ++ d2) k v = d1 ++ dict_set d2 k v.
Proof.
  induction d1 as [|[k' v'] d1 IH]; simpl; intros H; [reflexivity|].
  destruct (page_eqb k k') eqn:E.
  - apply page_eqb_eq in E. subst. exfalso. apply H. now left.
  - rewrite IH; [reflexivity|]. intros Hin. apply H. now right.
Qed.

Lemma keys_dict_set {V : Type} (d : dict V) (k : page) (v : V) :
  In k (keys d) -> keys (dict_set d k v) = keys d.
Proof.
  induction d as [|[k' v'] d IH]; simpl; intros H; [contradiction|].
  destruct (page_eqb k k') eqn:E; simpl; [reflexivity|].
  f_equal. apply IH. destruct H as [H|H]; [|assumption].
  apply page_eqb_neq in E. congruence.
Qed.

Lemma dict_get_In {V : Type} (d : dict V) (k : page) (v : V) :
  wf_dict d -> In (k, v) d -> dict_get d k = Returns v.
Proof.
  unfold wf_dict. induction d as [|[k' v'] d IH]; simpl; intros Hnd Hin.
  - contradiction.
  - inversion Hnd as [|? ? Hk' Hnd']; subst.
    destruct Hin as [Heq|Hin].
    + inversion Heq; subst. now rewrite page_eqb_refl.
    + destruct (page_eqb k k') eqn:E.
      * apply page_eqb_eq in E. subst. exfalso. apply Hk'.
        change k' with (fst (k', v)). now apply in_map.
      * now apply IH.
Qed.

Lemma dict_get_keys {V : Type} (d : dict V) (k : page) :
  In k (keys d) -> exists v, dict_get d k = Returns v.
Proof.
  induction d as [|[k' v'] d IH]; simpl; intros H; [contradiction|].
  destruct (page_eqb k k') eqn:E; [now exists v'|].
  apply IH. destruct H as [H|H]; [|assumption].
  apply page_eqb_neq in E. congruence.
Qed.

Lemma dict_get_Returns_In {V : Type} (d : dict V) (k : page) (v : V) :
  dict_get d k = Returns v -> In (k, v) d.
Proof.
  induction d as [|[k' v'] d IH]; simpl; intros H; [discriminate|].
  destruct (page_eqb k k') eqn:E.
  - apply page_eqb_eq in E. inversion H; subst. now left.
  - right. now apply IH.
Qed.

(** Storing under distinct new keys, one after the other, appends them
    in that order. *)
Lemma fold_set_fresh {V : Type} (f : page -> V) (ks : list page) (acc : dict V) :
  NoDup (keys acc ++ ks) ->
  fold_left (fun a k => dict_set a k (f k)) ks acc
  = acc ++ map (fun k => (k, f k)) ks.
Proof.
  revert acc. induction ks as [|k ks IH]; simpl; intros acc Hnd.
  - now rewrite app_nil_r.
  - rewrite dict_set_absent.
    + rewrite IH.
      * now rewrite <- app_assoc.
      * rewrite keys_app. simpl. rewrite <- app_assoc. exact Hnd.
    + apply NoDup_remove_2 in Hnd. intros Hin. apply Hnd.
      apply in_or_app. now left.
Qed.

Lemma fromkeys_map {V : Type} (ks : list page) (v : V) :
  NoDup ks -> fromkeys ks v = map (fun k => (k, v)) ks.
Proof. intros H. unfold fromkeys. now rewrite fold_set_fresh. Qed.

(** Overwriting every value of a dict in place. *)
Lemma fold_set_overwrite {V : Type} (g : V -> V) (l pre : dict V) :
  wf_dict (pre ++ l) ->
  fold_left (fun acc kv => dict_set acc (fst kv) (g (snd kv))) l (pre ++ l)
  = pre ++ map (fun kv => (fst kv, g (snd kv))) l.
Proof.
  unfold wf_dict. revert pre.
  induction l as [|[k v] l IH]; simpl; intros pre Hnd; [reflexivity|].
  rewrite dict_set_app.
  - simpl. rewrite page_eqb_refl.
    change (pre ++ (k, g v) :: l) with (pre ++ [(k, g v)] ++ l).
    rewrite app_assoc. rewrite IH.
    + now rewrite <- app_assoc.
    + rewrite <- app_assoc. rewrite keys_app in *. exact Hnd.
  - rewrite keys_app in Hnd. simpl in Hnd. apply NoDup_remove_2 in Hnd.
    intros Hin. apply Hnd. apply in_or_app. now left.
Qed.

Lemma keys_map_pair {V : Type} (f : page -> V) (ks : list page) :
  keys (map (fun k => (k, f k)) ks) = ks.
Proof. unfold keys. rewrite map_map. simpl. apply map_id. Qed.

Lemma values_map_pair {V : Type} (f : page -> V) (ks : list page) :
  values (map (fun k => (k, f k)) ks) = map f ks.
Proof. unfold values. rewrite map_map. reflexivity. Qed.

Lemma keys_length {V : Type} (d : dict V) : List.length (keys d) = List.length d.
Proof. apply length_map. Qed.

(** * [transition_model] *)

Lemma transition_model_dangling_map (corpus : corpus_t) (pg : page) (d : Q) :
  wf_dict corpus ->
  dict_get corpus pg = Returns [] ->
  transition_model corpus pg d
  = Returns (map (fun k => (k, 1 / len corpus)) (keys corpus)).
Proof.
  intros Hwf Hget. unfold transition_model. rewrite Hget. simpl.
  now rewrite (fold_set_fresh (fun _ => 1 / len corpus)).
Qed.

Lemma dict_get_map_pair {V : Type} (f : page -> V) (ks : list page) (k : page) :
  In k ks -> dict_get (map (fun k => (k, f k)) ks) k = Returns (f k).
Proof.
  induction ks as [|k' ks IH]; simpl; intros H; [contradiction|].
  destruct (page_eqb k k') eqn:E.
  - apply page_eqb_eq in E. now subst.
  - apply IH. destruct H as [H|H]; [|assumption].
    apply page_eqb_neq in E. congruence.
Qed.

Lemma dict_set_map_pair {V : Type} (f : page -> V) (ks : list page) (l : page) (w : V) :
  NoDup ks -> In l ks ->
  dict_set (map (fun k => (k, f k)) ks) l w
  = map (fun k => (k, if page_eqb k l then w else f k)) ks.
Proof.
  induction ks as [|k ks IH]; simpl; intros Hnd Hin; [contradiction|].
  inversion Hnd as [|? ? Hk Hnd']; subst.
  destruct (page_eqb l k) eqn:E.
  - apply page_eqb_eq in E. subst l. rewrite page_eqb_refl. f_equal.
    apply map_ext_in. intros a Ha.
    destruct (page_eqb a k) eqn:E'; [|reflexivity].
    apply page_eqb_eq in E'. subst. contradiction.
  - assert (E' : page_eqb k l = false).
    { apply page_eqb_neq. apply page_eqb_neq in E. congruence. }
    rewrite E'. f_equal. apply IH; [assumption|].
    destruct Hin as [Hin|Hin]; [|assumption].
    apply page_eqb_neq in E. congruence.
Qed.

(** Storing one value under every link of a set of known pages. *)
Lemma fold_set_links {V : Type} (w : V) (links ks : list page) (f : page -> V) :
  NoDup ks -> incl links ks ->
  fold_left (fun a l => dict_set a l w) links (map (fun k => (k, f k)) ks)
  = map (fun k => (k, if mem k links then w else f k)) ks.
Proof.
  intros Hnd. revert f.
  induction links as [|l links IH]; simpl; intros f Hincl.
  - reflexivity.
  - rewrite dict_set_map_pair; [|assumption|apply Hincl; now left].
    rewrite IH.
    + apply map_ext. intros a.
      destruct (page_eqb a l); simpl; [|reflexivity].
      now destruct (mem a links).
    + intros x Hx. apply Hincl. now right.
Qed.

Lemma length_zero_nil {A : Type} (l : list A) :
  Nat.eqb (List.length l) 0 = true <-> l = [].
Proof.
  destruct l; simpl; split; intros H; try reflexivity; discriminate.
Qed.

Lemma transition_model_linked_map (corpus : corpus_t) (pg : page) (d : Q)
  (links : list page) :
  wf_dict corpus ->
  dict_get corpus pg = Returns links ->
  links <> [] ->
  incl links (keys corpus) ->
  transition_model corpus pg d
  = Returns (map (fun k => (k, if mem k links
                               then (1 - d) / (len links + 1) + d / len links
                               else (1 - d) / (len links + 1)))
               (keys corpus)).
Proof.
  intros Hwf Hget Hne Hincl. unfold transition_model. rewrite Hget. simpl.
  destruct (Nat.eqb (List.length links) 0) eqn:E.
  - apply length_zero_nil in E. contradiction.
  - rewrite fromkeys_map by assumption.
    now rewrite (fold_set_links _ links (keys corpus)
                   (fun _ => (1 - d) / (len links + 1))).
Qed.

(** C8: on a page whose outbound set is empty, [transition_model]
    returns a mapping over exactly the pages of the corpus that gives
    every page the probability [1 / |corpus|]. *)
Theorem transition_model_dangling (corpus : corpus_t) (pg : page) (d : Q) :
  wf_dict corpus ->
  dict_get corpus pg = Returns [] ->
  exists r,
    transition_model corpus pg d = Returns r
    /\ keys r = keys corpus
    /\ forall p, In p (keys corpus) -> dict_get r p = Returns (1 / len corpus).
Proof.
  intros Hwf Hget.
  exists (map (fun k => (k, 1 / len corpus)) (keys corpus)).
  split; [now apply transition_model_dangling_map|].
  split; [apply keys_map_pair|].
  intros p Hp. now apply (dict_get_map_pair (fun _ => 1 / len corpus)).
Qed.

Lemma transition_model_dangling_witness :
  exists r,
    transition_model pages "4.html"%string DAMPING = Returns r
    /\ keys r = keys pages
    /\ forall p, In p (keys pages) -> dict_get r p = Returns (1 / len pages).
Proof.
  apply (transition_model_dangling pages "4.html"%string DAMPING).
  - unfold wf_dict. simpl.
    repeat (constructor; [simpl; intuition discriminate|]). constructor.
  - reflexivity.
Defined.


(** C1 at the graph of [playground.py]: from page [1.html], which links
    to two of the four pages, the values [transition_model] returns sum
    to 1.05, outside the tolerance. *)
Theorem transition_model_playground_sum :
  exists r,
    transition_model pages "1.html"%string DAMPING = Returns r
    /\ sum (values r) == 1.05
    /\ ~ sums_to_one r.
Proof.
  eexists. split; [reflexivity|]. split; [vm_compute; reflexivity|].
  unfold sums_to_one. vm_compute. intros H. apply H. reflexivity.
Qed.

(** * Sums *)

Lemma fold_left_Qplus (l : list Q) (a : Q) :
  fold_left Qplus l a == a + fold_left Qplus l 0.
Proof.
  revert a. induction l as [|x l IH]; simpl; intros a.
  - lra.
  - rewrite (IH (a + x)), (IH (0 + x)). lra.
Qed.

Lemma sum_cons (x : Q) (l : list Q) : sum (x :: l) == x + sum l.
Proof. unfold sum. simpl. rewrite fold_left_Qplus. lra. Qed.

Lemma sum_map (f : page -> Q) (ks : list page) : sum (map f ks) == total f ks.
Proof.
  induction ks as [|k ks IH]; simpl; [reflexivity|].
  rewrite sum_cons, IH. reflexivity.
Qed.

Lemma len_cons {A : Type} (x : A) (l : list A) : len (x :: l) == len l + 1.
Proof.
  unfold len. simpl List.length. rewrite Nat2Z.inj_succ, <- Z.add_1_r.
  rewrite inject_Z_plus. reflexivity.
Qed.

Lemma len_nil {A : Type} : len (@nil A) == 0.
Proof. reflexivity. Qed.

Lemma len_nonneg {A : Type} (l : list A) : 0 <= len l.
Proof.
  unfold len. change 0 with (inject_Z 0). rewrite <- Zle_Qle. lia.
Qed.

Lemma len_pos {A : Type} (l : list A) : l <> [] -> 0 < len l.
Proof.
  destruct l as [|x l]; [congruence|]. intros _.
  rewrite len_cons. pose proof (len_nonneg l). lra.
Qed.

Lemma len_keys {V : Type} (d : dict V) : len (keys d) = len d.
Proof. unfold len. now rewrite keys_length. Qed.

Lemma total_ext (f g : page -> Q) (ks : list page) :
  (forall k, In k ks -> f k == g k) -> total f ks == total g ks.
Proof.
  induction ks as [|k ks IH]; simpl; intros H; [reflexivity|].
  rewrite (H k) by now left. rewrite IH; [reflexivity|].
  intros a Ha. apply H. now right.
Qed.

Lemma total_le (f g : page -> Q) (ks : list page) :
  (forall k, In k ks -> f k <= g k) -> total f ks <= total g ks.
Proof.
  induction ks as [|k ks IH]; simpl; intros H; [lra|].
  assert (f k <= g k) by (apply H; now left).
  assert (total f ks <= total g ks) by (apply IH; intros a Ha; apply H; now right).
  lra.
Qed.

Lemma total_plus (f g : page -> Q) (ks : list page) :
  total (fun k => f k + g k) ks == total f ks + total g ks.
Proof. induction ks as [|k ks IH]; simpl; [lra|]. rewrite IH. lra. Qed.

Lemma total_scale (a : Q) (f : page -> Q) (ks : list page) :
  total (fun k => a * f k) ks == a * total f ks.
Proof. induction ks as [|k ks IH]; simpl; [lra|]. rewrite IH. lra. Qed.

Lemma total_const (a : Q) (ks : list page) :
  total (fun _ => a) ks == len ks * a.
Proof.
  induction ks as [|k ks IH]; simpl.
  - rewrite len_nil. lra.
  - rewrite IH, len_cons. lra.
Qed.

Lemma total_nonneg (f : page -> Q) (ks : list page) :
  (forall k, In k ks -> 0 <= f k) -> 0 <= total f ks.
Proof.
  intros H. assert (E : total (fun _ => 0) ks == 0).
  { rewrite total_const. lra. }
  rewrite <- E. now apply total_le.
Qed.

Lemma total_filter (a : Q) (s : page -> bool) (ks : list page) :
  total (fun k => if s k then a else 0) ks == len (filter s ks) * a.
Proof.
  induction ks as [|k ks IH]; simpl.
  - rewrite len_nil. lra.
  - rewrite IH. destruct (s k); [rewrite len_cons|]; lra.
Qed.

(** A set of known pages is met as often in the page list as it has
    elements. *)
Lemma filter_mem_length (ls ks : list page) :
  NoDup ks -> NoDup ls -> incl ls ks ->
  List.length (filter (fun k => mem k ls) ks) = List.length ls.
Proof.
  intros Hks Hls Hincl. apply Permutation_length.
  apply NoDup_Permutation; [now apply NoDup_filter|assumption|].
  intros x. rewrite filter_In, mem_In. split; [tauto|].
  intros H. split; [now apply Hincl|assumption].
Qed.

Lemma total_indicator (a : Q) (ls ks : list page) :
  NoDup ks -> NoDup ls -> incl ls ks ->
  total (fun k => if mem k ls then a else 0) ks == len ls * a.
Proof.
  intros Hks Hls Hincl. rewrite total_filter. unfold len.
  now rewrite filter_mem_length.
Qed.

(** The total of the values [transition_model] returns from a page with
    [k] links in a corpus of [N] pages: [N (1 - d) / (k + 1) + d]. *)
Lemma transition_model_linked_sum (corpus : corpus_t) (pg : page) (d : Q)
  (links : list page) :
  wf_dict corpus -> NoDup links -> incl links (keys corpus) ->
  dict_get corpus pg = Returns links ->
  links <> [] ->
  exists r,
    transition_model corpus pg d = Returns r
    /\ sum (values r) == len corpus * ((1 - d) / (len links + 1)) + d.
Proof.
  intros Hwf Hnd Hincl Hget Hne. eexists.
  split; [apply (transition_model_linked_map corpus pg d links); assumption|].
  rewrite values_map_pair, sum_map.
  rewrite (total_ext _ (fun k => (1 - d) / (len links + 1)
                                 + (if mem k links then d / len links else 0))).
  - rewrite total_plus, total_const.
    rewrite (total_indicator _ links (keys corpus) Hwf Hnd Hincl).
    rewrite len_keys. pose proof (len_pos links Hne). field. lra.
  - intros k _. destruct (mem k links); lra.
Qed.

(** * [check_dict] *)

Lemma Qgtb_false (a b : Q) : Qgtb a b = false <-> a <= b.
Proof.
  unfold Qgtb. rewrite negb_false_iff. apply Qle_bool_iff.
Qed.

Lemma Qgtb_true (a b : Q) : Qgtb a b = true <-> b < a.
Proof.
  unfold Qgtb. rewrite negb_true_iff. split; intros H.
  - apply Qnot_le_lt. intros Hle. apply Qle_bool_iff in Hle. congruence.
  - destruct (Qle_bool a b) eqn:E; [|reflexivity].
    apply Qle_bool_iff in E. lra.
Qed.

(** What the check decides: no positional pair with equal keys has a
    new value more than 0.001 above the old one. *)
Lemma check_pairs_true (ps : list ((page * Q) * (page * Q))) :
  check_pairs ps = true <->
  Forall (fun p => fst (fst p) = fst (snd p) ->
                   snd (fst p) - snd (snd p) <= 1 # 1000) ps.
Proof.
  induction ps as [|[[k1 v1] [k2 v2]] ps IH]; simpl.
  - split; [constructor|reflexivity].
  - destruct (page_eqb k1 k2) eqn:E.
    + apply page_eqb_eq in E.
      destruct (Qgtb (v1 - v2) (1 # 1000)) eqn:G.
      * apply Qgtb_true in G. split; [discriminate|].
        intros H. inversion H as [|? ? Hh _]; subst. simpl in Hh.
        specialize (Hh eq_refl). lra.
      * apply Qgtb_false in G. rewrite IH. split; intros H.
        -- constructor; [simpl; intros _; exact G|assumption].
        -- now inversion H.
    + apply page_eqb_neq in E. rewrite IH. split; intros H.
      * constructor; [simpl; intros; contradiction|assumption].
      * now inversion H.
Qed.

(** C2 at [ranks_new], [ranks_old]: [check_dict] answers [True] although
    the value of page A differs by 0.002 from the old one. *)
Theorem check_dict_one_sided :
  check_dict ranks_new ranks_old = true
  /\ ~ spec_converged ranks_new ranks_old.
Proof.
  split; [reflexivity|].
  intros H. specialize (H "A"%string 0.198 0.2 eq_refl eq_refl).
  vm_compute in H. apply H. reflexivity.
Qed.

(** * [iterate_pagerank]: the loops as functions *)

Lemma links_sum_loop (c : corpus_t) (pr : dict Q) (N : Q) (p : page) :
  forall (c2 : corpus_t) (pr2 : dict Q) (acc : Q),
    keys pr2 = keys c2 ->
    (forall k ls, In (k, ls) c2 -> dict_get c k = Returns ls) ->
    (forall k r, In (k, r) pr2 -> dict_get pr k = Returns r) ->
    foldM (fun links_sum link =>
             links <- dict_get c link ;;
             if mem p links then
               r <- dict_get pr link ;;
               Returns (links_sum + r / len links)
             else if Nat.eqb (List.length links) 0 then
               r <- dict_get pr link ;;
               Returns (links_sum + r / N)
             else Returns links_sum)
          (keys c2) acc
    = Returns (lsum (combine (values c2) (values pr2)) N p acc).
Proof.
  induction c2 as [|[k ls] c2 IH]; intros pr2 acc Hk Hc Hp.
  - reflexivity.
  - destruct pr2 as [|[k' r] pr2]; [discriminate|].
    simpl in Hk. inversion Hk as [[Hk1 Hk2]]. subst k'.
    simpl. rewrite (Hc k ls) by now left. simpl.
    rewrite (Hp k r) by now left. simpl.
    destruct (mem p ls); simpl.
    + apply IH; [assumption| |]; intros; [apply Hc|apply Hp]; now right.
    + destruct (Nat.eqb (List.length ls) 0); simpl;
        (apply IH; [assumption| |]; intros; [apply Hc|apply Hp]; now right).
Qed.

Lemma links_sum_pure (c : corpus_t) (pr : dict Q) (N : Q) (p : page) :
  wf_dict c -> keys pr = keys c ->
  links_sum c N pr p = Returns (lsum (combine (values c) (values pr)) N p 0).
Proof.
  intros Hwf Hk. unfold links_sum. apply links_sum_loop; [assumption| |].
  - intros k ls. now apply dict_get_In.
  - intros k r. apply dict_get_In. unfold wf_dict. now rewrite Hk.
Qed.

Lemma foldM_set_fresh {V S : Type} (g : page -> result S) (s : page -> S)
  (h : S -> V) (ks : list page) (acc : dict V) :
  (forall k, In k ks -> g k = Returns (s k)) ->
  NoDup (keys acc ++ ks) ->
  foldM (fun a k => x <- g k ;; Returns (dict_set a k (h x))) ks acc
  = Returns (acc ++ map (fun k => (k, h (s k))) ks).
Proof.
  revert acc. induction ks as [|k ks IH]; simpl; intros acc Hg Hnd.
  - now rewrite app_nil_r.
  - rewrite (Hg k) by now left. simpl. rewrite dict_set_absent.
    + rewrite IH.
      * now rewrite <- app_assoc.
      * intros a Ha. apply Hg. now right.
      * rewrite keys_app. simpl. rewrite <- app_assoc. exact Hnd.
    + apply NoDup_remove_2 in Hnd. intros Hin. apply Hnd.
      apply in_or_app. now left.
Qed.

Lemma new_ranks_pure (c : corpus_t) (d N : Q) (pr : dict Q) :
  wf_dict c -> keys pr = keys c ->
  new_ranks c d N pr
  = Returns (map (fun p => (p, (1 - d) / N
                               + d * lsum (combine (values c) (values pr)) N p 0))
               (keys c)).
Proof.
  intros Hwf Hk. unfold new_ranks.
  rewrite (foldM_set_fresh (links_sum c N pr)
             (fun p => lsum (combine (values c) (values pr)) N p 0)
             (fun x => (1 - d) / N + d * x)).
  - reflexivity.
  - intros k _. now apply links_sum_pure.
  - exact Hwf.
Qed.

Lemma pydiv_Returns (a b : Q) : ~ b == 0 -> pydiv a b = Returns (a / b).
Proof.
  intros H. unfold pydiv. destruct (Qeq_bool b 0) eqn:E; [|reflexivity].
  apply Qeq_bool_iff in E. contradiction.
Qed.

Lemma pydiv_Raises (a b : Q) : b == 0 -> pydiv a b = Raises ZeroDivisionError.
Proof.
  intros H. unfold pydiv. apply Qeq_bool_iff in H. now rewrite H.
Qed.

Lemma normalize_pure (d : dict Q) :
  wf_dict d -> ~ sum (values d) == 0 ->
  normalize d
  = Returns (map (fun kv => (fst kv, snd kv * (1 / sum (values d)))) d).
Proof.
  intros Hwf Hs. unfold normalize. rewrite pydiv_Returns by assumption. simpl.
  f_equal.
  apply (fold_set_overwrite (fun v => v * (1 / sum (values d))) d []).
  exact Hwf.
Qed.

Lemma normalize_keys (d r : dict Q) :
  wf_dict d -> normalize d = Returns r -> keys r = keys d.
Proof.
  intros Hwf H. unfold normalize in H.
  destruct (pydiv 1 (sum (values d))) as [t|e] eqn:E; [|discriminate].
  simpl in H. inversion H; subst.
  pose proof (fold_set_overwrite (fun v => v * t) d [] Hwf) as F.
  simpl in F. rewrite F. unfold keys. rewrite map_map. reflexivity.
Qed.

Lemma step_keys (c : corpus_t) (d N : Q) (pr new : dict Q) :
  wf_dict c -> keys pr = keys c ->
  step c d N pr = Returns new -> keys new = keys c.
Proof.
  intros Hwf Hk H. unfold step in H.
  rewrite new_ranks_pure in H by assumption. simpl in H.
  apply normalize_keys in H.
  - rewrite H. apply keys_map_pair.
  - unfold wf_dict. rewrite keys_map_pair. exact Hwf.
Qed.

Lemma initial_ranks_pure (c : corpus_t) (pr : dict Q) :
  wf_dict c -> initial_ranks c = Returns pr ->
  pr = map (fun k => (k, 1 / len c)) (keys c).
Proof.
  intros Hwf H. unfold initial_ranks, pydiv in H.
  destruct (Qeq_bool (len c) 0); [discriminate|].
  simpl in H. inversion H. now apply fromkeys_map.
Qed.

Lemma run_keys (c : corpus_t) (d : Q) (pr : dict Q) :
  wf_dict c -> run c d pr -> keys pr = keys c.
Proof.
  intros Hwf H. induction H as [pr H|pr new _ IH Hs _].
  - apply initial_ranks_pure in H; [|assumption]. subst.
    apply keys_map_pair.
  - now apply (step_keys c d (len c) pr new).
Qed.

Lemma check_pairs_by_key (old : dict Q) :
  forall new2 old2 : dict Q,
    keys new2 = keys old2 ->
    (forall k v, In (k, v) old2 -> dict_get old k = Returns v) ->
    check_pairs (combine new2 old2)
    = forallb (fun kv =>
                 match dict_get old (fst kv) with
                 | Returns v2 => negb (Qgtb (snd kv - v2) (1 # 1000))
                 | Raises _ => true
                 end) new2.
Proof.
  induction new2 as [|[k1 v1] new2 IH]; intros old2 Hk Hget.
  - reflexivity.
  - destruct old2 as [|[k2 v2] old2]; [discriminate|].
    simpl in Hk. inversion Hk as [[Hk1 Hk2]]. subst k2.
    simpl. rewrite page_eqb_refl. rewrite (Hget k1 v2) by now left.
    destruct (Qgtb (v1 - v2) (1 # 1000)); simpl; [reflexivity|].
    apply IH; [assumption|]. intros. apply Hget. now right.
Qed.

Lemma check_dict_by_key (new old : dict Q) :
  wf_dict old -> keys new = keys old ->
  check_dict new old = check_by_key new old.
Proof.
  intros Hwf Hk. unfold check_dict, check_by_key.
  apply check_pairs_by_key; [assumption|].
  intros k v. now apply dict_get_In.
Qed.

Lemma combine_same_keys {V W : Type} (d1 : dict V) (d2 : dict W) :
  keys d1 = keys d2 ->
  Forall (fun p => fst (fst p) = fst (snd p)) (combine d1 d2)
  /\ map (fun p => fst (fst p)) (combine d1 d2) = keys d1.
Proof.
  revert d2. induction d1 as [|[k1 v1] d1 IH]; intros d2 Hk.
  - split; [constructor|reflexivity].
  - destruct d2 as [|[k2 v2] d2]; [discriminate|].
    simpl in Hk. inversion Hk as [[Hk1 Hk2]].
    destruct (IH d2 Hk2) as [IH1 IH2]. simpl. split.
    + constructor; [reflexivity|assumption].
    + now rewrite IH2.
Qed.

(** C10: at every pass of the loop of [iterate_pagerank] the old and the
    new mapping list the keys of the corpus in the order of the corpus;
    every pair [check_dict] examines has equal keys, the pairs cover the
    pages of the corpus, and the positional check decides the same as
    the check that matches by key. *)
Theorem iterate_pagerank_key_order (c : corpus_t) (d : Q) (pr new : dict Q) :
  wf_dict c ->
  run c d pr ->
  step c d (len c) pr = Returns new ->
  keys pr = keys c
  /\ keys new = keys c
  /\ Forall (fun p => fst (fst p) = fst (snd p)) (combine new pr)
  /\ map (fun p => fst (fst p)) (combine new pr) = keys c
  /\ check_dict new pr = check_by_key new pr.
Proof.
  intros Hwf Hrun Hstep.
  assert (Hp : keys pr = keys c) by now apply (run_keys c d).
  assert (Hn : keys new = keys c) by now apply (step_keys c d (len c) pr).
  assert (Hnp : keys new = keys pr) by congruence.
  destruct (combine_same_keys new pr Hnp) as [H1 H2].
  repeat split; try assumption.
  - congruence.
  - apply check_dict_by_key; [|assumption]. unfold wf_dict. now rewrite Hp.
Qed.

Lemma wf_dict_pages : wf_dict pages.
Proof.
  unfold wf_dict. simpl.
  repeat (constructor; [simpl; intuition discriminate|]). constructor.
Defined.

Lemma iterate_pagerank_key_order_witness :
  let pr := map (fun k => (k, 1 / len pages)) (keys pages) in
  exists new,
    step pages DAMPING (len pages) pr = Returns new
    /\ keys pr = keys pages
    /\ keys new = keys pages
    /\ Forall (fun p => fst (fst p) = fst (snd p)) (combine new pr)
    /\ map (fun p => fst (fst p)) (combine new pr) = keys pages
    /\ check_dict new pr = check_by_key new pr.
Proof.
  intros pr.
  destruct (step pages DAMPING (len pages) pr) as [new|e] eqn:E;
    [|vm_compute in E; discriminate].
  exists new. split; [reflexivity|].
  apply (iterate_pagerank_key_order pages DAMPING pr new).
  - exact wf_dict_pages.
  - apply run_init. reflexivity.
  - exact E.
Defined.

(** * The mapping [iterate_pagerank] returns *)

Lemma iterate_loop_returns (c : corpus_t) (d : Q) (fuel : nat) :
  forall pr r,
    run c d pr ->
    iterate_loop fuel c d (len c) pr = Some (Returns r) ->
    exists new,
      run c d r
      /\ step c d (len c) r = Returns new
      /\ check_dict new r = true.
Proof.
  induction fuel as [|fuel IH]; simpl; intros pr r Hrun H; [discriminate|].
  destruct (step c d (len c) pr) as [new|e] eqn:Hs; [|discriminate].
  destruct (check_dict new pr) eqn:Hc.
  - inversion H; subst. exists new. auto.
  - apply (IH new r); [|assumption]. now apply (run_next c d pr new).
Qed.

(** C7: the mapping [iterate_pagerank] returns is the one [pagerank]
    held at the head of the pass that declared convergence: its update
    [new] passed [check_dict] against it, and the mapping returned is
    the old one, not [new]. *)
Theorem iterate_pagerank_returns_previous (fuel : nat) (c : corpus_t) (d : Q)
  (r : dict Q) :
  iterate_pagerank fuel c d = Some (Returns r) ->
  exists new,
    run c d r
    /\ step c d (len c) r = Returns new
    /\ check_dict new r = true
    /\ forall fuel', iterate_loop (S fuel') c d (len c) r = Some (Returns r).
Proof.
  unfold iterate_pagerank. intros H.
  destruct (initial_ranks c) as [pr|e] eqn:Hi; [|discriminate].
  apply iterate_loop_returns in H; [|now apply run_init].
  destruct H as [new [Hrun [Hs Hc]]]. exists new.
  repeat split; try assumption.
  intros fuel'. simpl. now rewrite Hs, Hc.
Qed.

Lemma iterate_pagerank_returns_previous_witness :
  exists new,
    run graph_AB 0.001 [("A", 1 # 2); ("B", 1 # 2)]%string
    /\ step graph_AB 0.001 (len graph_AB) [("A", 1 # 2); ("B", 1 # 2)]%string
       = Returns new
    /\ check_dict new [("A", 1 # 2); ("B", 1 # 2)]%string = true
    /\ forall fuel',
         iterate_loop (S fuel') graph_AB 0.001 (len graph_AB)
           [("A", 1 # 2); ("B", 1 # 2)]%string
         = Some (Returns [("A", 1 # 2); ("B", 1 # 2)]%string).
Proof.
  apply (iterate_pagerank_returns_previous 1 graph_AB 0.001).
  reflexivity.
Defined.

(** On [graph_AB] the mapping returned differs from the new mapping of
    the converging pass. *)
Lemma iterate_pagerank_returns_previous_differs :
  exists r new,
    iterate_pagerank 1 graph_AB 0.001 = Some (Returns r)
    /\ step graph_AB 0.001 (len graph_AB) r = Returns new
    /\ check_dict new r = true
    /\ ~ dict_Qeq r new.
Proof.
  do 2 eexists. split; [reflexivity|]. split; [reflexivity|].
  split; [reflexivity|].
  intros H. inversion H as [|? ? ? ? [_ Hv] _]; subst.
  vm_compute in Hv. discriminate.
Qed.

(** * The rank equation *)

Lemma lsum_total (c : corpus_t) (pr : dict Q) (N : Q) (p : page) :
  forall (c2 : corpus_t) (pr2 : dict Q) (acc : Q),
    keys pr2 = keys c2 ->
    (forall k ls, In (k, ls) c2 -> dict_get c k = Returns ls) ->
    (forall k r, In (k, r) pr2 -> dict_get pr k = Returns r) ->
    lsum (combine (values c2) (values pr2)) N p acc
    == acc + total (fun q =>
                      if mem p (outlinks c q)
                      then rank pr q / len (outlinks c q)
                      else if Nat.eqb (List.length (outlinks c q)) 0
                           then rank pr q / N
                           else 0)
                   (keys c2).
Proof.
  induction c2 as [|[k ls] c2 IH]; intros pr2 acc Hk Hc Hp.
  - simpl. lra.
  - destruct pr2 as [|[k' r] pr2]; [discriminate|].
    simpl in Hk. inversion Hk as [[Hk1 Hk2]]. subst k'.
    simpl. rewrite IH; try assumption.
    + unfold outlinks, rank. rewrite (Hc k ls) by now left.
      rewrite (Hp k r) by now left.
      destruct (mem p ls); [lra|].
      destruct (Nat.eqb (List.length ls) 0); lra.
    + intros. apply Hc. now right.
    + intros. apply Hp. now right.
Qed.

Lemma lsum_spec (c : corpus_t) (pr : dict Q) (p : page) :
  wf_dict c -> keys pr = keys c ->
  lsum (combine (values c) (values pr)) (len c) p 0 == spec_links_sum c pr p.
Proof.
  intros Hwf Hk. rewrite (lsum_total c pr); try assumption.
  - unfold spec_links_sum. lra.
  - intros k ls. now apply dict_get_In.
  - intros k r. apply dict_get_In. unfold wf_dict. now rewrite Hk.
Qed.



(** * The random source *)

Lemma choice_In (rnd : rng) (i : nat) (seq : list page) :
  uniform rnd -> seq <> [] ->
  exists p, choice rnd i seq = Returns p /\ In p seq.
Proof.
  intros Hu Hne. unfold choice.
  destruct (Hu i) as [H0 H1]. pose proof (len_pos seq Hne) as HL.
  set (x := rnd i * len seq).
  assert (Hx0 : 0 <= x) by (unfold x; nra).
  assert (Hx1 : x < len seq) by (unfold x; nra).
  assert (Hf0 : (0 <= Qfloor x)%Z).
  { change 0%Z with (Qfloor 0). now apply Qfloor_resp_le. }
  assert (Hf1 : (Qfloor x < Z.of_nat (List.length seq))%Z).
  { rewrite Zlt_Qlt. pose proof (Qfloor_le x) as Hle.
    unfold len in Hx1. lra. }
  assert (Hi : (Z.to_nat (Qfloor x) < List.length seq)%nat) by lia.
  destruct (nth_error seq (Z.to_nat (Qfloor x))) as [p|] eqn:E.
  - exists p. split; [reflexivity|]. now apply nth_error_In in E.
  - apply nth_error_None in E. lia.
Qed.

Lemma choice_empty (rnd : rng) (i : nat) : choice rnd i [] = Raises IndexError.
Proof.
  unfold choice. now destruct (Z.to_nat (Qfloor (rnd i * len (@nil page)))).
Qed.

Lemma accumulate_from_length (t : Q) (ws : list Q) :
  List.length (accumulate_from t ws) = List.length ws.
Proof.
  revert t. induction ws as [|w ws IH]; simpl; intros t; [reflexivity|].
  now rewrite IH.
Qed.

Lemma accumulate_length (ws : list Q) :
  List.length (accumulate ws) = List.length ws.
Proof.
  destruct ws as [|w ws]; simpl; [reflexivity|].
  now rewrite accumulate_from_length.
Qed.

Lemma accumulate_from_positive (t : Q) (ws : list Q) :
  0 < t -> Forall (fun w => 0 < w) ws ->
  Forall (fun w => 0 < w) (accumulate_from t ws).
Proof.
  revert t. induction ws as [|w ws IH]; simpl; intros t Ht H; [constructor|].
  inversion H; subst. constructor; [lra|]. apply IH; [lra|assumption].
Qed.

Lemma accumulate_positive (ws : list Q) :
  Forall (fun w => 0 < w) ws -> Forall (fun w => 0 < w) (accumulate ws).
Proof.
  destruct ws as [|w ws]; simpl; intros H; [constructor|].
  inversion H; subst. constructor; [assumption|].
  now apply accumulate_from_positive.
Qed.

(** The index [bisect] returns lies between its bounds. *)
Lemma bisect_bounds (a : list Q) (x : Q) (fuel : nat) :
  forall lo hi, (lo <= hi)%nat ->
    (lo <= bisect fuel a x lo hi <= hi)%nat.
Proof.
  induction fuel as [|fuel IH]; cbn [bisect]; intros lo hi H; [lia|].
  destruct (Nat.ltb lo hi) eqn:E; [|lia].
  apply Nat.ltb_lt in E.
  assert (Hm1 : (lo <= (lo + hi) / 2)%nat)
    by (apply Nat.div_le_lower_bound; lia).
  assert (Hm2 : ((lo + hi) / 2 < hi)%nat)
    by (apply Nat.Div0.div_lt_upper_bound; lia).
  destruct (Qgtb (nth ((lo + hi) / 2) a 0) x).
  - specialize (IH lo ((lo + hi) / 2)%nat Hm1). lia.
  - assert (Hm3 : (S ((lo + hi) / 2) <= hi)%nat) by lia.
    specialize (IH (S ((lo + hi) / 2)) hi Hm3). lia.
Qed.

(** With positive weights [choices] returns a member of the
    population, whatever the random source yields. *)
Lemma choices_In (rnd : rng) (i : nat) (population : list page)
  (weights : list Q) :
  population <> [] ->
  List.length weights = List.length population ->
  Forall (fun w => 0 < w) weights ->
  exists p, choices rnd i population weights = Returns p /\ In p population.
Proof.
  intros Hne Hlen Hpos. unfold choices.
  rewrite accumulate_length, Hlen, Nat.eqb_refl. simpl.
  pose proof (accumulate_positive weights Hpos) as Hacc.
  destruct (rev (accumulate weights)) as [|total rest] eqn:Er.
  - apply (f_equal (@List.length Q)) in Er.
    rewrite length_rev, accumulate_length, Hlen in Er.
    destruct population; [congruence|discriminate].
  - assert (Ht : 0 < total).
    { rewrite Forall_forall in Hacc. apply Hacc. apply in_rev.
      rewrite Er. now left. }
    destruct (Qle_bool total 0) eqn:El.
    + apply Qle_bool_iff in El. lra.
    + set (hi := (List.length population - 1)%nat).
      pose proof (bisect_bounds (accumulate weights) (rnd i * total) hi 0 hi
                    (Nat.le_0_l hi)) as [_ Hb].
      destruct (nth_error population
                  (bisect hi (accumulate weights) (rnd i * total) 0 hi))
        as [p|] eqn:E.
      * exists p. split; [reflexivity|]. now apply nth_error_In in E.
      * apply nth_error_None in E.
        destruct population; [congruence|]. unfold hi in *. simpl in *. lia.
Qed.

(** * [sample_pagerank] *)

Lemma dict_set_values_all {V : Type} (P : V -> Prop) (d : dict V) (k : page) (v : V) :
  Forall P (values d) -> P v -> Forall P (values (dict_set d k v)).
Proof.
  induction d as [|[k' v'] d IH]; simpl; intros H Hv.
  - now constructor.
  - inversion H; subst. destruct (page_eqb k k'); simpl; constructor; auto.
Qed.

Lemma fromkeys_values_all {V : Type} (ks : list page) (v : V) :
  Forall (fun x => x = v) (values (fromkeys ks v)).
Proof.
  unfold fromkeys.
  assert (G : forall acc, Forall (fun x => x = v) (values acc) ->
              Forall (fun x => x = v)
                (values (fold_left (fun a k => dict_set a k v) ks acc))).
  { induction ks as [|k ks IH]; simpl; intros acc H; [assumption|].
    apply IH. now apply dict_set_values_all. }
  apply G. constructor.
Qed.

Lemma sum_all_zero (l : list Q) : Forall (fun x => x = 0) l -> sum l == 0.
Proof.
  induction l as [|x l IH]; intros H; [reflexivity|].
  inversion H; subst. rewrite sum_cons, IH by assumption. lra.
Qed.

Lemma keys_nonempty {V : Type} (d : dict V) : d <> [] -> keys d <> [].
Proof. destruct d; simpl; congruence. Qed.

(** C3, as the code has it: with [n <= 0] no sample is drawn and
    [sample_pagerank] fails, with [IndexError] from [random.choice] on
    an empty corpus and with [ZeroDivisionError] from
    [1.0 / sum(...)] over the all-zero counters otherwise. *)
Theorem sample_pagerank_nonpositive (rnd : rng) (c : corpus_t) (d : Q) (n : Z) :
  uniform rnd ->
  (n <= 0)%Z ->
  (c = [] -> sample_pagerank rnd c d n = Raises IndexError)
  /\ (c <> [] -> sample_pagerank rnd c d n = Raises ZeroDivisionError).
Proof.
  intros Hu Hn. split.
  - intros ->. unfold sample_pagerank. simpl. now rewrite choice_empty.
  - intros Hne. unfold sample_pagerank.
    destruct (choice_In rnd 0 (keys c) Hu (keys_nonempty c Hne)) as [p [Hp _]].
    rewrite Hp. simpl.
    replace (Z.to_nat n) with 0%nat by lia. simpl.
    unfold normalize. rewrite pydiv_Raises; [reflexivity|].
    apply sum_all_zero. apply fromkeys_values_all.
Qed.

Lemma uniform_rnd_zero : uniform rnd_zero.
Proof. intros i. unfold rnd_zero. split; lra. Defined.

Lemma sample_pagerank_nonpositive_witness :
  (pages = [] -> sample_pagerank rnd_zero pages DAMPING 0 = Raises IndexError)
  /\ (pages <> [] ->
      sample_pagerank rnd_zero pages DAMPING 0 = Raises ZeroDivisionError).
Proof.
  apply (sample_pagerank_nonpositive rnd_zero pages DAMPING 0).
  - exact uniform_rnd_zero.
  - lia.
Defined.

(** C3 as stated fails: with [n = 0] on the graph of [playground.py]
    the error raised is [ZeroDivisionError], not an invalid-argument
    error. *)
Lemma sample_pagerank_zero_samples :
  exists e,
    sample_pagerank rnd_zero pages DAMPING 0 = Raises e
    /\ ~ invalid_argument e.
Proof.
  exists ZeroDivisionError. split; [reflexivity|].
  unfold invalid_argument. discriminate.
Qed.

Lemma transition_model_positive (c : corpus_t) (pg : page) (d : Q) :
  wf_dict c -> graph_invariant c -> In pg (keys c) ->
  0 < d -> d < 1 ->
  exists model,
    transition_model c pg d = Returns model
    /\ keys model = keys c
    /\ Forall (fun v => 0 < v) (values model).
Proof.
  intros Hwf Hinv Hpg Hd0 Hd1.
  destruct (dict_get_keys c pg Hpg) as [links Hget].
  pose proof (dict_get_Returns_In c pg links Hget) as Hin.
  assert (Hc : c <> []) by (destruct c; [contradiction|congruence]).
  pose proof (len_pos c Hc) as HN.
  destruct links as [|l links].
  - eexists. split; [now apply transition_model_dangling_map|].
    split; [apply keys_map_pair|].
    rewrite values_map_pair. apply Forall_forall. intros v Hv.
    apply in_map_iff in Hv. destruct Hv as [k [Hk _]]. subst v.
    apply Qlt_shift_div_l; lra.
  - assert (Hne : l :: links <> []) by congruence.
    pose proof (len_pos (l :: links) Hne) as HL.
    assert (Hsp : 0 < (1 - d) / (len (l :: links) + 1))
      by (apply Qlt_shift_div_l; lra).
    assert (Hdk : 0 < d / len (l :: links))
      by (apply Qlt_shift_div_l; lra).
    eexists. split.
    + apply (transition_model_linked_map c pg d (l :: links));
        try assumption. now apply (Hinv pg).
    + split; [apply keys_map_pair|].
      rewrite values_map_pair. apply Forall_forall. intros v Hv.
      apply in_map_iff in Hv. destruct Hv as [k [Hk _]]. subst v.
      destruct (mem k (l :: links)); lra.
Qed.

Lemma sum_dict_set (d : dict Q) (k : page) (v w : Q) :
  dict_get d k = Returns v ->
  sum (values (dict_set d k w)) == sum (values d) - v + w.
Proof.
  induction d as [|[k' v'] d IH]; simpl; intros H; [discriminate|].
  destruct (page_eqb k k') eqn:E; simpl.
  - inversion H; subst. rewrite !sum_cons. lra.
  - rewrite !sum_cons, IH by assumption. lra.
Qed.


Lemma inject_nat_succ (n : nat) :
  inject_Z (Z.of_nat (S n)) == inject_Z (Z.of_nat n) + 1.
Proof. rewrite Nat2Z.inj_succ, <- Z.add_1_r, inject_Z_plus. reflexivity. Qed.

(** Every pass of the sampling loop adds one to one counter. *)
Lemma sample_loop_counts (rnd : rng) (c : corpus_t) (d : Q) :
  wf_dict c -> graph_invariant c -> 0 < d -> d < 1 ->
  forall (steps i : nat) (counts : dict Q) (pg : page),
    keys counts = keys c -> In pg (keys c) ->
    exists counts',
      sample_loop rnd steps i c d counts pg = Returns counts'
      /\ keys counts' = keys c
      /\ sum (values counts')
         == sum (values counts) + inject_Z (Z.of_nat steps).
Proof.
  intros Hwf Hinv Hd0 Hd1.
  induction steps as [|steps IH]; intros i counts pg Hk Hpg.
  - exists counts. split; [reflexivity|]. split; [assumption|].
    simpl. change (inject_Z 0) with 0. lra.
  - cbn [sample_loop].
    destruct (transition_model_positive c pg d Hwf Hinv Hpg Hd0 Hd1)
      as [model [Hm [Hmk Hmv]]].
    rewrite Hm. cbn [bind].
    assert (Hpg' : In pg (keys counts)) by now rewrite Hk.
    destruct (dict_get_keys counts pg Hpg') as [v Hv].
    rewrite Hv. cbn [bind].
    assert (Hpop : keys model <> []).
    { rewrite Hmk. destruct (keys c); [contradiction|congruence]. }
    assert (Hlen : List.length (values model) = List.length (keys model)).
    { unfold values, keys. now rewrite !length_map. }
    destruct (choices_In rnd i (keys model) (values model) Hpop Hlen Hmv)
      as [next [Hnext Hin]].
    rewrite Hnext. cbn [bind].
    destruct (IH (S i) (dict_set counts pg (v + 1)) next) as [counts' [H1 [H2 H3]]].
    + rewrite keys_dict_set by assumption. exact Hk.
    + now rewrite <- Hmk.
    + exists counts'. split; [assumption|]. split; [assumption|].
      rewrite H3, (sum_dict_set counts pg v (v + 1) Hv), inject_nat_succ. lra.
Qed.


Lemma uniform_rnd_cycle : uniform rnd_cycle.
Proof.
  intros i. unfold rnd_cycle.
  pose proof (Nat.mod_upper_bound i 7 ltac:(discriminate)) as Hm.
  assert (H0 : 0 <= inject_Z (Z.of_nat (i mod 7))).
  { change 0 with (inject_Z 0). rewrite <- Zle_Qle. lia. }
  assert (H1 : inject_Z (Z.of_nat (i mod 7)) < 7).
  { change 7 with (inject_Z 7). rewrite <- Zlt_Qlt. lia. }
  split.
  - apply Qle_shift_div_l; lra.
  - apply Qlt_shift_div_r; lra.
Qed.

Lemma graph_invariant_pages : graph_invariant pages.
Proof.
  intros k ls H. simpl in H.
  destruct H as [H|[H|[H|[H|[]]]]]; inversion H; subst;
    intros x Hx; simpl in *; intuition.
Qed.

Lemma wf_sets_pages : wf_sets pages.
Proof.
  intros k ls H. simpl in H.
  destruct H as [H|[H|[H|[H|[]]]]]; inversion H; subst;
    repeat (constructor; [simpl; intuition discriminate|]); constructor.
Qed.


(** * Termination of [iterate_pagerank] *)




Lemma total_swap (f : page -> page -> Q) (ks1 ks2 : list page) :
  total (fun p => total (fun q => f q p) ks2) ks1
  == total (fun q => total (fun p => f q p) ks1) ks2.
Proof.
  induction ks1 as [|p ks1 IH]; simpl.
  - symmetry. rewrite total_const. lra.
  - rewrite IH. rewrite <- total_plus. reflexivity.
Qed.


Lemma total_ge_term (f : page -> Q) (ks : list page) (p : page) :
  (forall k, In k ks -> 0 <= f k) -> In p ks -> f p <= total f ks.
Proof.
  induction ks as [|k ks IH]; simpl; intros Hf Hp; [contradiction|].
  assert (0 <= f k) by (apply Hf; now left).
  assert (0 <= total f ks) by (apply total_nonneg; intros; apply Hf; now right).
  destruct Hp as [->|Hp]; [lra|].
  assert (f p <= total f ks) by (apply IH; [intros; apply Hf; now right|assumption]).
  lra.
Qed.

Lemma iterate_loop_more (c : corpus_t) (d N : Q) (r : result (dict Q)) :
  forall (fuel extra : nat) (pr : dict Q),
    iterate_loop fuel c d N pr = Some r ->
    iterate_loop (fuel + extra) c d N pr = Some r.
Proof.
  induction fuel as [|fuel IH]; simpl; intros extra pr H; [discriminate|].
  destruct (step c d N pr) as [new|e]; [|assumption].
  destruct (check_dict new pr); [assumption|]. now apply IH.
Qed.

Lemma map_scale_pairs (f : page -> Q) (a : Q) (ks : list page) :
  map (fun kv => (fst kv, snd kv * a)) (map (fun k => (k, f k)) ks)
  = map (fun k => (k, f k * a)) ks.
Proof. rewrite map_map. reflexivity. Qed.

Section Convergence.

Variable c : corpus_t.
Variable d : Q.
Hypothesis c_wf : wf_dict c.
Hypothesis c_sets : wf_sets c.
Hypothesis c_inv : graph_invariant c.
Hypothesis c_nonempty : c <> [].
Hypothesis d_pos : 0 < d.
Hypothesis d_lt_1 : d < 1.

Lemma N_pos : 0 < len c.
Proof. now apply len_pos. Qed.

Lemma keys_dict_of (x : page -> Q) : keys (dict_of c x) = keys c.
Proof. apply keys_map_pair. Qed.

Lemma rank_dict_of (x : page -> Q) (q : page) :
  In q (keys c) -> rank (dict_of c x) q = x q.
Proof.
  intros H. unfold rank, dict_of. now rewrite (dict_get_map_pair x).
Qed.

Lemma outlinks_wf (q : page) :
  In q (keys c) -> NoDup (outlinks c q) /\ incl (outlinks c q) (keys c).
Proof.
  intros H. unfold outlinks. destruct (dict_get_keys c q H) as [ls Hls].
  rewrite Hls. apply dict_get_Returns_In in Hls. split.
  - now apply (c_sets q).
  - now apply (c_inv q).
Qed.

Lemma weight_nonneg (q p : page) : 0 <= weight c q p.
Proof.
  unfold weight. pose proof N_pos.
  destruct (mem p (outlinks c q)) eqn:E.
  - apply mem_In in E.
    assert (Hne : outlinks c q <> []) by (intros Hn; now rewrite Hn in E).
    pose proof (len_pos _ Hne). apply Qle_shift_div_l; lra.
  - destruct (Nat.eqb (List.length (outlinks c q)) 0); [|lra].
    apply Qle_shift_div_l; lra.
Qed.

(** The shares of the rank of a page add up to one. *)
Lemma weight_total (q : page) :
  In q (keys c) -> total (weight c q) (keys c) == 1.
Proof.
  intros H. destruct (outlinks_wf q H) as [Hnd Hincl].
  pose proof N_pos as HN. unfold weight.
  destruct (outlinks c q) as [|l ls] eqn:E.
  - simpl. rewrite total_const, len_keys. field. lra.
  - assert (Hne : l :: ls <> []) by congruence.
    pose proof (len_pos _ Hne) as HL.
    rewrite (total_ext _ (fun p => if mem p (l :: ls)
                                   then 1 / len (l :: ls) else 0)).
    + rewrite total_indicator by assumption. field. lra.
    + intros k _. destruct (mem k (l :: ls)); reflexivity.
Qed.

Lemma raw_eq (x : page -> Q) (p : page) :
  raw c d x p
  == (1 - d) / len c + d * total (fun q => x q * weight c q p) (keys c).
Proof.
  unfold raw. rewrite lsum_spec; [|exact c_wf|apply keys_dict_of].
  unfold spec_links_sum.
  rewrite (total_ext _ (fun q => x q * weight c q p)); [reflexivity|].
  intros q Hq. rewrite rank_dict_of by assumption. unfold weight.
  pose proof N_pos as HN.
  destruct (mem p (outlinks c q)) eqn:E.
  - apply mem_In in E.
    assert (Hne : outlinks c q <> []) by (intros Hn; now rewrite Hn in E).
    pose proof (len_pos _ Hne). field. lra.
  - destruct (Nat.eqb (List.length (outlinks c q)) 0); [field|]; lra.
Qed.

Lemma total_weighted (x : page -> Q) :
  total (fun p => total (fun q => x q * weight c q p) (keys c)) (keys c)
  == total x (keys c).
Proof.
  rewrite total_swap. apply total_ext. intros q Hq.
  rewrite total_scale, weight_total by assumption. lra.
Qed.

(** The new ranks add up to one when the old ones do. *)
Lemma total_raw (x : page -> Q) :
  total x (keys c) == 1 -> total (raw c d x) (keys c) == 1.
Proof.
  intros Hx. pose proof N_pos as HN.
  rewrite (total_ext _ (fun p => (1 - d) / len c
                + d * total (fun q => x q * weight c q p) (keys c)))
    by (intros; apply raw_eq).
  rewrite total_plus, total_const, total_scale, total_weighted, Hx, len_keys.
  field. lra.
Qed.

Lemma sum_raw (x : page -> Q) :
  total x (keys c) == 1 -> sum (values (dict_of c (raw c d x))) == 1.
Proof.
  intros Hx. unfold dict_of. rewrite values_map_pair, sum_map.
  now apply total_raw.
Qed.

Lemma next_eq (x : page -> Q) (p : page) :
  total x (keys c) == 1 -> next c d x p == raw c d x p.
Proof.
  intros Hx. unfold next. rewrite (sum_raw x Hx). field.
Qed.

Lemma total_next (x : page -> Q) :
  total x (keys c) == 1 -> total (next c d x) (keys c) == 1.
Proof.
  intros Hx. rewrite (total_ext _ (raw c d x)) by (intros; now apply next_eq).
  now apply total_raw.
Qed.

(** One pass of the loop on a mapping whose ranks add up to one. *)
Lemma step_dict_of (x : page -> Q) :
  total x (keys c) == 1 ->
  step c d (len c) (dict_of c x) = Returns (dict_of c (next c d x)).
Proof.
  intros Hx. unfold step.
  rewrite new_ranks_pure; [|exact c_wf|apply keys_dict_of]. cbn [bind].
  change (map (fun p => (p, (1 - d) / len c
                  + d * lsum (combine (values c) (values (dict_of c x)))
                          (len c) p 0)) (keys c))
    with (dict_of c (raw c d x)).
  rewrite normalize_pure.
  - f_equal.
    exact (map_scale_pairs (raw c d x) (1 / sum (values (dict_of c (raw c d x))))
             (keys c)).
  - unfold wf_dict. rewrite keys_dict_of. exact c_wf.
  - rewrite (sum_raw x Hx). lra.
Qed.



(** A small distance passes the convergence check. *)
Lemma check_dict_close (x' x : page -> Q) :
  dist c x' x <= 1 # 1000 ->
  check_dict (dict_of c x') (dict_of c x) = true.
Proof.
  intros H. unfold check_dict. apply check_pairs_true.
  assert (G : forall p, In p (keys c) -> x' p - x p <= 1 # 1000).
  { intros p Hp. apply Qle_trans with (Qabs (x' p - x p)); [apply Qle_Qabs|].
    eapply Qle_trans; [|exact H]. unfold dist.
    apply (total_ge_term (fun p => Qabs (x' p - x p)) (keys c) p);
      [intros; apply Qabs_nonneg|assumption]. }
  unfold dict_of. revert G. generalize (keys c) as ks.
  induction ks as [|k ks IH]; simpl; intros G; constructor.
  - simpl. intros _. apply G. now left.
  - apply IH. intros p Hp. apply G. now right.
Qed.


Lemma initial_ranks_dict_of :
  initial_ranks c = Returns (dict_of c (fun _ => 1 / len c)).
Proof.
  unfold initial_ranks. pose proof N_pos.
  rewrite pydiv_Returns by lra. cbn [bind].
  now rewrite fromkeys_map.
Qed.


(** ** The rank mappings of a run *)

Lemma floor_pos : 0 < (1 - d) / len c.
Proof. pose proof N_pos. apply Qlt_shift_div_l; lra. Qed.

Lemma good_nonneg (x : page -> Q) (p : page) :
  good_ranks c d x -> In p (keys c) -> 0 <= x p.
Proof.
  intros [_ H] Hp. pose proof floor_pos. specialize (H p Hp). lra.
Qed.

Lemma good_le_1 (x : page -> Q) (p : page) :
  good_ranks c d x -> In p (keys c) -> x p <= 1.
Proof.
  intros H Hp. destruct H as [Ht Hl]. rewrite <- Ht.
  apply total_ge_term; [|assumption].
  intros k Hk. now apply good_nonneg.
Qed.

Lemma raw_lower (x : page -> Q) (p : page) :
  good_ranks c d x -> In p (keys c) -> (1 - d) / len c <= raw c d x p.
Proof.
  intros H Hp. rewrite raw_eq.
  assert (0 <= d * total (fun q => x q * weight c q p) (keys c)).
  { apply Qmult_le_0_compat; [lra|]. apply total_nonneg. intros q Hq.
    apply Qmult_le_0_compat; [now apply good_nonneg|apply weight_nonneg]. }
  lra.
Qed.

Lemma next_good (x : page -> Q) :
  good_ranks c d x -> good_ranks c d (next c d x).
Proof.
  intros H. pose proof H as [Ht _]. split; [now apply total_next|].
  intros p Hp. rewrite (next_eq x p Ht). now apply raw_lower.
Qed.

Lemma initial_good : good_ranks c d (fun _ => 1 / len c).
Proof.
  pose proof N_pos as HN. split.
  - rewrite total_const, len_keys. field. lra.
  - intros p _.
    assert (E : 1 / len c - (1 - d) / len c == d / len c) by (field; lra).
    assert (0 < d / len c) by (apply Qlt_shift_div_l; lra).
    lra.
Qed.

Lemma run_good (pr : dict Q) :
  run c d pr -> exists x, pr = dict_of c x /\ good_ranks c d x.
Proof.
  intros H. induction H as [pr H|pr new _ IH Hs _].
  - exists (fun _ => 1 / len c). split; [|apply initial_good].
    now apply initial_ranks_pure.
  - destruct IH as [x [-> Hx]]. exists (next c d x).
    split; [|now apply next_good].
    destruct Hx as [Ht _]. rewrite (step_dict_of x Ht) in Hs. congruence.
Qed.

Lemma sum_dict_of (x : page -> Q) :
  sum (values (dict_of c x)) == total x (keys c).
Proof. unfold dict_of. now rewrite values_map_pair, sum_map. Qed.

Lemma iterate_loop_no_raise (fuel : nat) :
  forall (x : page -> Q) (e : exn),
    good_ranks c d x ->
    iterate_loop fuel c d (len c) (dict_of c x) <> Some (Raises e).
Proof.
  induction fuel as [|fuel IH]; intros x e Hx; cbn [iterate_loop];
    [discriminate|].
  pose proof Hx as [Ht _]. rewrite (step_dict_of x Ht).
  destruct (check_dict (dict_of c (next c d x)) (dict_of c x));
    [discriminate|].
  apply IH. now apply next_good.
Qed.




(** The uniform mapping is returned after one pass when the shares
    every page receives add up to one. *)
Lemma iterate_pagerank_balanced :
  (forall p, In p (keys c) -> total (fun q => weight c q p) (keys c) == 1) ->
  forall extra,
    iterate_pagerank (S extra) c d
    = Some (Returns (dict_of c (fun _ => 1 / len c))).
Proof.
  intros Hbal extra. pose proof N_pos as HN.
  set (x0 := fun _ : page => 1 / len c).
  pose proof initial_good as [Ht _]. fold x0 in Ht.
  assert (Hfix : forall p, In p (keys c) -> next c d x0 p == x0 p).
  { intros p Hp. rewrite (next_eq x0 p Ht), raw_eq. unfold x0.
    rewrite total_scale, (Hbal p Hp). field. lra. }
  assert (Hd : dist c (next c d x0) x0 <= 1 # 1000).
  { unfold dist.
    rewrite (total_ext _ (fun _ => 0)).
    - rewrite total_const. lra.
    - intros p Hp. rewrite (Hfix p Hp).
      assert (E : x0 p - x0 p == 0) by ring. rewrite E. reflexivity. }
  unfold iterate_pagerank. rewrite initial_ranks_dict_of. fold x0.
  change (S extra) with (1 + extra)%nat. apply iterate_loop_more.
  cbn [iterate_loop]. rewrite (step_dict_of x0 Ht).
  now rewrite (check_dict_close (next c d x0) x0 Hd).
Qed.

End Convergence.



(** * Further properties of [transition_model] *)

Lemma dict_get_absent {V : Type} (d : dict V) (k : page) :
  ~ In k (keys d) -> dict_get d k = Raises KeyError.
Proof.
  induction d as [|[k' v'] d IH]; simpl; intros H; [reflexivity|].
  destruct (page_eqb k k') eqn:E.
  - apply page_eqb_eq in E. subst. exfalso. apply H. now left.
  - apply IH. intros Hin. apply H. now right.
Qed.

Lemma dict_get_Returns_key {V : Type} (d : dict V) (k : page) (v : V) :
  dict_get d k = Returns v -> In k (keys d).
Proof.
  intros H. apply dict_get_Returns_In in H.
  change k with (fst (k, v)). now apply in_map.
Qed.

(** X1: [transition_model] returns exactly when [page] is a key of the
    corpus, and raises [KeyError] exactly when it is not. *)
Theorem transition_model_KeyError (c : corpus_t) (pg : page) (d : Q) :
  (In pg (keys c) <-> exists r, transition_model c pg d = Returns r)
  /\ (~ In pg (keys c) <-> transition_model c pg d = Raises KeyError).
Proof.
  assert (A : In pg (keys c) -> exists r, transition_model c pg d = Returns r).
  { intros H. destruct (dict_get_keys c pg H) as [links Hl].
    unfold transition_model. rewrite Hl. cbn [bind].
    destruct (Nat.eqb (List.length links) 0); eexists; reflexivity. }
  assert (B : ~ In pg (keys c) -> transition_model c pg d = Raises KeyError).
  { intros H. unfold transition_model. now rewrite dict_get_absent. }
  split; split.
  - exact A.
  - intros [r Hr]. destruct (dict_get c pg) as [links|e] eqn:E.
    + now apply dict_get_Returns_key in E.
    + unfold transition_model in Hr. rewrite E in Hr. discriminate.
  - exact B.
  - intros H Hin. destruct (A Hin) as [r Hr]. congruence.
Qed.

(** X2: from a page with [k >= 1] links in a corpus of [N] pages the
    values [transition_model] returns add up to
    [N (1 - d) / (k + 1) + d]; for [d] other than 1 this is 1 exactly
    when [N = k + 1]. *)
Theorem transition_model_sum_formula (c : corpus_t) (pg : page) (d : Q)
  (links : list page) :
  wf_dict c -> NoDup links -> incl links (keys c) ->
  dict_get c pg = Returns links ->
  links <> [] ->
  exists r,
    transition_model c pg d = Returns r
    /\ sum (values r) == len c * ((1 - d) / (len links + 1)) + d
    /\ (~ d == 1 -> (sum (values r) == 1 <-> len c == len links + 1)).
Proof.
  intros Hwf Hnd Hincl Hget Hne.
  destruct (transition_model_linked_sum c pg d links Hwf Hnd Hincl Hget Hne)
    as [r [Hr Hs]].
  exists r. split; [assumption|]. split; [assumption|].
  intros Hd. rewrite Hs. pose proof (len_pos links Hne) as HL.
  split; intros H.
  - assert (E : (1 - d) * (len c - (len links + 1)) == 0).
    { assert (E1 : (1 - d) * (len c - (len links + 1))
                   == (len c * ((1 - d) / (len links + 1)) + d - 1)
                      * (len links + 1)) by (field; lra).
      rewrite E1, H. ring. }
    apply Qmult_integral in E. destruct E as [E|E]; lra.
  - rewrite H. field. lra.
Qed.

Lemma transition_model_sum_formula_witness :
  exists r,
    transition_model pages "1.html"%string DAMPING = Returns r
    /\ sum (values r)
       == len pages * ((1 - DAMPING) / (len ["2.html"; "3.html"]%string + 1))
          + DAMPING
    /\ (~ DAMPING == 1 ->
        (sum (values r) == 1
         <-> len pages == len ["2.html"; "3.html"]%string + 1)).
Proof.
  apply (transition_model_sum_formula pages "1.html"%string DAMPING
           ["2.html"; "3.html"]%string).
  - exact wf_dict_pages.
  - repeat (constructor; [simpl; intuition discriminate|]). constructor.
  - intros x Hx. simpl in *. intuition.
  - reflexivity.
  - discriminate.
Defined.

(** X3: from a page with at least one link, all links known, the result
    lists the pages of the corpus in its order; a linked page gets
    [(1 - d) / (k + 1) + d / k] and every other page [(1 - d) / (k + 1)]. *)
Theorem transition_model_linked_values (c : corpus_t) (pg : page) (d : Q)
  (links : list page) :
  wf_dict c -> incl links (keys c) ->
  dict_get c pg = Returns links ->
  links <> [] ->
  exists r,
    transition_model c pg d = Returns r
    /\ keys r = keys c
    /\ forall p, In p (keys c) ->
         dict_get r p
         = Returns (if mem p links
                    then (1 - d) / (len links + 1) + d / len links
                    else (1 - d) / (len links + 1)).
Proof.
  intros Hwf Hincl Hget Hne. eexists.
  split; [apply (transition_model_linked_map c pg d links); assumption|].
  split; [apply keys_map_pair|].
  intros p Hp.
  now apply (dict_get_map_pair
               (fun k => if mem k links
                         then (1 - d) / (len links + 1) + d / len links
                         else (1 - d) / (len links + 1))).
Qed.

Lemma transition_model_linked_values_witness :
  exists r,
    transition_model pages "2.html"%string DAMPING = Returns r
    /\ keys r = keys pages
    /\ forall p, In p (keys pages) ->
         dict_get r p
         = Returns (if mem p ["3.html"]%string
                    then (1 - DAMPING) / (len ["3.html"]%string + 1)
                         + DAMPING / len ["3.html"]%string
                    else (1 - DAMPING) / (len ["3.html"]%string + 1)).
Proof.
  apply (transition_model_linked_values pages "2.html"%string DAMPING
           ["3.html"]%string).
  - exact wf_dict_pages.
  - intros x Hx. simpl in *. intuition.
  - reflexivity.
  - discriminate.
Defined.

Lemma mem_Permutation (k : page) (l1 l2 : list page) :
  Permutation l1 l2 -> mem k l1 = mem k l2.
Proof.
  intros H. destruct (mem k l1) eqn:E1, (mem k l2) eqn:E2; try reflexivity.
  - apply mem_In in E1. apply (Permutation_in _ H) in E1.
    apply mem_In in E1. congruence.
  - apply mem_In in E2. apply (Permutation_in _ (Permutation_sym H)) in E2.
    apply mem_In in E2. congruence.
Qed.

(** X4: the result of [transition_model] does not depend on the order in
    which the set of links of the page is iterated: two corpora with the
    same keys whose sets for [page] hold the same known pages give the
    same result. *)
Theorem transition_model_links_order (c1 c2 : corpus_t) (pg : page) (d : Q)
  (l1 l2 : list page) :
  wf_dict c1 -> keys c1 = keys c2 ->
  dict_get c1 pg = Returns l1 -> dict_get c2 pg = Returns l2 ->
  Permutation l1 l2 -> incl l1 (keys c1) ->
  transition_model c1 pg d = transition_model c2 pg d.
Proof.
  intros Hwf Hk H1 H2 Hp Hincl.
  assert (Hwf2 : wf_dict c2) by (unfold wf_dict; now rewrite <- Hk).
  assert (HN : len c1 = len c2) by (rewrite <- !len_keys; now rewrite Hk).
  destruct l1 as [|a l1].
  - apply Permutation_nil in Hp. subst l2.
    rewrite !transition_model_dangling_map by assumption.
    now rewrite HN, Hk.
  - assert (Hne2 : l2 <> []).
    { intros ->. apply Permutation_sym, Permutation_nil in Hp. discriminate. }
    assert (Hincl2 : incl l2 (keys c2)).
    { intros x Hx. rewrite <- Hk. apply Hincl.
      now apply (Permutation_in _ (Permutation_sym Hp)). }
    assert (HL : len (a :: l1) = len l2).
    { unfold len. now rewrite (Permutation_length Hp). }
    rewrite (transition_model_linked_map c1 pg d (a :: l1))
      by (try assumption; discriminate).
    rewrite (transition_model_linked_map c2 pg d l2) by assumption.
    rewrite HL, Hk. f_equal. apply map_ext. intros k.
    now rewrite (mem_Permutation k (a :: l1) l2 Hp).
Qed.

Lemma transition_model_links_order_witness :
  transition_model pages "1.html"%string DAMPING
  = transition_model
      [ ("1.html", ["3.html"; "2.html"]); ("2.html", ["3.html"]);
        ("3.html", ["2.html"]); ("4.html", []) ]%string
      "1.html"%string DAMPING.
Proof.
  apply (transition_model_links_order pages _ "1.html"%string DAMPING
           ["2.html"; "3.html"]%string ["3.html"; "2.html"]%string).
  - exact wf_dict_pages.
  - reflexivity.
  - reflexivity.
  - reflexivity.
  - apply perm_swap.
  - intros x Hx. simpl in *. intuition.
Defined.

Lemma keys_dict_set_same {V : Type} (d : dict V) (k : page) (v : V) :
  In k (keys (dict_set d k v)).
Proof.
  induction d as [|[k' v'] d IH]; simpl; [now left|].
  destruct (page_eqb k k') eqn:E; simpl.
  - apply page_eqb_eq in E. now left.
  - now right.
Qed.

Lemma keys_dict_set_keep {V : Type} (d : dict V) (k k0 : page) (v : V) :
  In k0 (keys d) -> In k0 (keys (dict_set d k v)).
Proof.
  induction d as [|[k' v'] d IH]; simpl; intros H; [contradiction|].
  destruct (page_eqb k k'); simpl; destruct H as [H|H]; auto.
Qed.

Lemma fold_set_keys_keep {V : Type} (w : V) (ls : list page) (acc : dict V)
  (k0 : page) :
  In k0 (keys acc) ->
  In k0 (keys (fold_left (fun a l => dict_set a l w) ls acc)).
Proof.
  revert acc. induction ls as [|l ls IH]; simpl; intros acc H; [assumption|].
  apply IH. now apply keys_dict_set_keep.
Qed.

Lemma fold_set_keys_new {V : Type} (w : V) (ls : list page) (acc : dict V)
  (k0 : page) :
  In k0 ls ->
  In k0 (keys (fold_left (fun a l => dict_set a l w) ls acc)).
Proof.
  revert acc. induction ls as [|l ls IH]; simpl; intros acc H; [contradiction|].
  destruct H as [->|H].
  - apply fold_set_keys_keep. apply keys_dict_set_same.
  - now apply IH.
Qed.

(** X5: whether or not the links are pages of the corpus, the result of
    [transition_model] has a key for every page of the corpus and for
    every link of the page; so a link that is no key of the corpus makes
    the keys of the result differ from the keys of the corpus. *)
Theorem transition_model_covers_links (c : corpus_t) (pg : page) (d : Q)
  (links : list page) :
  dict_get c pg = Returns links ->
  exists r,
    transition_model c pg d = Returns r
    /\ (forall k, In k (keys c) -> In k (keys r))
    /\ (forall l, In l links -> In l (keys r))
    /\ (forall l, In l links -> ~ In l (keys c) -> keys r <> keys c).
Proof.
  intros Hget. unfold transition_model. rewrite Hget. cbn [bind].
  destruct (Nat.eqb (List.length links) 0) eqn:E.
  - apply length_zero_nil in E. subst links. eexists.
    split; [reflexivity|]. split; [|split; intros l []].
    intros k Hk. now apply fold_set_keys_new.
  - eexists. split; [reflexivity|].
    assert (A : forall l, In l links ->
                  In l (keys (fold_left
                     (fun a l0 => dict_set a l0
                        ((1 - d) / (len links + 1) + d / len links))
                     links (fromkeys (keys c) ((1 - d) / (len links + 1)))))).
    { intros l Hl. now apply fold_set_keys_new. }
    split; [|split; [exact A|]].
    + intros k Hk. apply fold_set_keys_keep. unfold fromkeys.
      now apply fold_set_keys_new.
    + intros l Hl Hn Heq. apply Hn. rewrite <- Heq. now apply A.
Qed.

Lemma transition_model_covers_links_witness :
  exists r,
    transition_model [ ("A", ["B"; "Z"]); ("B", []) ]%string "A"%string DAMPING
    = Returns r
    /\ (forall k, In k (keys [ ("A", ["B"; "Z"]); ("B", []) ]%string) ->
          In k (keys r))
    /\ (forall l, In l ["B"; "Z"]%string -> In l (keys r))
    /\ (forall l, In l ["B"; "Z"]%string ->
          ~ In l (keys [ ("A", ["B"; "Z"]); ("B", []) ]%string) ->
          keys r <> keys [ ("A", ["B"; "Z"]); ("B", []) ]%string).
Proof.
  apply (transition_model_covers_links
           [ ("A", ["B"; "Z"]); ("B", []) ]%string "A"%string DAMPING
           ["B"; "Z"]%string).
  reflexivity.
Defined.

(** * Further properties of [check_dict] *)

Lemma check_by_key_true (new old : dict Q) :
  check_by_key new old = true <->
  forall k v1 v2,
    In (k, v1) new -> dict_get old k = Returns v2 -> v1 - v2 <= 1 # 1000.
Proof.
  unfold check_by_key. rewrite forallb_forall. split.
  - intros H k v1 v2 Hin Hget. specialize (H (k, v1) Hin). simpl in H.
    rewrite Hget in H. apply negb_true_iff in H. now apply Qgtb_false.
  - intros H [k v1] Hin. simpl.
    destruct (dict_get old k) as [v2|e] eqn:E; [|reflexivity].
    apply negb_true_iff. apply Qgtb_false. now apply (H k v1 v2).
Qed.

(** X6: on two mappings that list the same keys in the same order,
    [check_dict] returns [True] exactly when no page has a new value
    more than 0.001 above its old value; a value that falls is never
    rejected. *)
Theorem check_dict_same_keys (new old : dict Q) :
  wf_dict old -> keys new = keys old ->
  (check_dict new old = true <->
   forall k v1 v2,
     dict_get new k = Returns v1 -> dict_get old k = Returns v2 ->
     v1 - v2 <= 1 # 1000).
Proof.
  intros Hwf Hk.
  assert (Hwn : wf_dict new) by (unfold wf_dict; now rewrite Hk).
  rewrite check_dict_by_key by assumption. rewrite check_by_key_true.
  split; intros H k v1 v2 H1 H2.
  - apply (H k v1 v2); [|assumption]. now apply dict_get_Returns_In.
  - apply (H k v1 v2); [|assumption]. now apply dict_get_In.
Qed.

Lemma check_dict_same_keys_witness :
  check_dict ranks_new ranks_old = true <->
  forall k v1 v2,
    dict_get ranks_new k = Returns v1 -> dict_get ranks_old k = Returns v2 ->
    v1 - v2 <= 1 # 1000.
Proof.
  apply (check_dict_same_keys ranks_new ranks_old).
  - unfold wf_dict. simpl.
    repeat (constructor; [simpl; intuition discriminate|]). constructor.
  - reflexivity.
Defined.

(** X7: [check_dict] pairs the entries by position and skips a pair
    whose keys differ: when no position holds the same key in both
    mappings (the same pages in another order, or an empty mapping), it
    returns [True] whatever the values are. *)
Theorem check_dict_misaligned (new old : dict Q) :
  (forall p, In p (combine new old) -> fst (fst p) <> fst (snd p)) ->
  check_dict new old = true.
Proof.
  intros H. unfold check_dict. apply check_pairs_true.
  apply Forall_forall. intros p Hp Heq. exfalso. now apply (H p Hp).
Qed.

Lemma check_dict_misaligned_witness :
  check_dict [("A", 1); ("B", 0)]%string [("B", 1); ("A", 0)]%string = true.
Proof.
  apply (check_dict_misaligned
           [("A", 1); ("B", 0)]%string [("B", 1); ("A", 0)]%string).
  intros p Hp. simpl in Hp.
  destruct Hp as [Hp|[Hp|[]]]; subst p; simpl; discriminate.
Defined.

Lemma sum_le_len (eps : Q) (l : list Q) :
  Forall (fun x => x <= eps) l -> sum l <= len l * eps.
Proof.
  induction l as [|x l IH]; intros H.
  - rewrite len_nil. unfold sum. simpl. lra.
  - inversion H; subst. rewrite sum_cons, len_cons.
    specialize (IH H3). lra.
Qed.

(** A member of a list of numbers, each at most [eps], is at least the
    sum of the list less [eps] for every other member. *)
Lemma sum_lower_bound (eps : Q) (l : list Q) (x : Q) :
  Forall (fun y => y <= eps) l -> In x l ->
  sum l - (len l - 1) * eps <= x.
Proof.
  induction l as [|y l IH]; intros H Hin; [contradiction|].
  inversion H; subst. rewrite sum_cons, len_cons.
  destruct Hin as [->|Hin].
  - pose proof (sum_le_len eps l H3). lra.
  - specialize (IH H3 Hin). lra.
Qed.

Lemma combine_diffs_sum (new old : dict Q) :
  keys new = keys old ->
  sum (map (fun p => snd (fst p) - snd (snd p)) (combine new old))
  == sum (values new) - sum (values old).
Proof.
  revert old. induction new as [|[k1 v1] new IH]; intros old Hk.
  - destruct old; [|discriminate]. unfold sum. simpl. lra.
  - destruct old as [|[k2 v2] old]; [discriminate|].
    simpl in Hk. inversion Hk as [[Hk1 Hk2]].
    simpl. rewrite !sum_cons, IH by assumption. lra.
Qed.

Lemma combine_lookup (new old : dict Q) (k : page) (v1 v2 : Q) :
  keys new = keys old ->
  dict_get new k = Returns v1 -> dict_get old k = Returns v2 ->
  In ((k, v1), (k, v2)) (combine new old).
Proof.
  revert old. induction new as [|[k1 w1] new IH]; intros old Hk H1 H2.
  - discriminate.
  - destruct old as [|[k2 w2] old]; [discriminate|].
    simpl in Hk. inversion Hk as [[Hk1 Hk2]]. subst k2.
    simpl in H1, H2. simpl. destruct (page_eqb k k1) eqn:E.
    + apply page_eqb_eq in E. inversion H1; inversion H2; subst. now left.
    + right. now apply IH.
Qed.

Lemma combine_length_same_keys {V W : Type} (d1 : dict V) (d2 : dict W) :
  keys d1 = keys d2 -> List.length (combine d1 d2) = List.length d2.
Proof.
  intros Hk. rewrite length_combine.
  rewrite <- (keys_length d1), <- (keys_length d2), Hk. apply Nat.min_id.
Qed.

(** The bound a passed check gives when both mappings have the same
    keys and the same total. *)
Lemma check_dict_bound (new old : dict Q) :
  keys new = keys old ->
  sum (values new) == sum (values old) ->
  check_dict new old = true ->
  forall k v1 v2,
    dict_get new k = Returns v1 -> dict_get old k = Returns v2 ->
    Qabs (v1 - v2) <= (len old - 1) * (1 # 1000).
Proof.
  intros Hk Hs Hc k v1 v2 H1 H2.
  set (ds := map (fun p => snd (fst p) - snd (snd p)) (combine new old)).
  assert (Hall : Forall (fun y => y <= 1 # 1000) ds).
  { unfold ds. apply Forall_map. unfold check_dict in Hc.
    apply check_pairs_true in Hc.
    destruct (combine_same_keys new old Hk) as [Hsame _].
    rewrite Forall_forall in *. intros p Hp. apply (Hc p Hp). now apply Hsame. }
  assert (Hin : In (v1 - v2) ds).
  { unfold ds. apply in_map_iff. exists ((k, v1), (k, v2)).
    split; [reflexivity|]. now apply combine_lookup. }
  assert (Hsum : sum ds == 0).
  { unfold ds. rewrite combine_diffs_sum by assumption. lra. }
  assert (Hlen : len ds = len old).
  { unfold ds, len. now rewrite length_map, combine_length_same_keys. }
  pose proof (sum_lower_bound (1 # 1000) ds (v1 - v2) Hall Hin) as Hlow.
  rewrite Hsum, Hlen in Hlow.
  assert (Hup : v1 - v2 <= 1 # 1000).
  { rewrite Forall_forall in Hall. now apply Hall. }
  assert (Hup2 : v1 - v2 <= (len old - 1) * (1 # 1000)).
  { destruct ds as [|y [|z ds']] eqn:Eds.
    - contradiction.
    - destruct Hin as [Hy|[]]. subst y. rewrite sum_cons in Hsum.
      unfold sum in Hsum. simpl in Hsum.
      rewrite <- Hlen, len_cons, len_nil. lra.
    - rewrite <- Hlen, !len_cons. pose proof (len_nonneg ds'). lra. }
  apply Qabs_Qle_condition. lra.
Qed.

(** X8: when the two mappings have the same keys and the same total (as
    two rank mappings that each sum to one), a passed check bounds the
    change of every page by 0.001 times the number of other pages: the
    one-sided test lets one value fall by as much as all others rise. *)
Theorem check_dict_equal_totals (new old : dict Q) :
  keys new = keys old ->
  sum (values new) == sum (values old) ->
  check_dict new old = true ->
  forall k v1 v2,
    dict_get new k = Returns v1 -> dict_get old k = Returns v2 ->
    Qabs (v1 - v2) <= (len old - 1) * (1 # 1000).
Proof. exact (check_dict_bound new old). Qed.

Lemma check_dict_equal_totals_witness :
  check_dict ranks_new ranks_old = true
  /\ forall k v1 v2,
       dict_get ranks_new k = Returns v1 -> dict_get ranks_old k = Returns v2 ->
       Qabs (v1 - v2) <= (len ranks_old - 1) * (1 # 1000).
Proof.
  split; [reflexivity|].
  apply (check_dict_equal_totals ranks_new ranks_old).
  - reflexivity.
  - vm_compute. reflexivity.
  - reflexivity.
Defined.

(** * Further properties of [iterate_pagerank] *)

Lemma iterate_pagerank_run (fuel : nat) (c : corpus_t) (d : Q) (r : dict Q) :
  iterate_pagerank fuel c d = Some (Returns r) ->
  exists new,
    run c d r /\ step c d (len c) r = Returns new /\ check_dict new r = true.
Proof.
  unfold iterate_pagerank. intros H.
  destruct (initial_ranks c) as [pr|e] eqn:Hi; [|discriminate].
  apply iterate_loop_returns in H; [assumption|now apply run_init].
Qed.


(** X9: on an empty corpus [iterate_pagerank] raises
    [ZeroDivisionError], at [1.0 / num_pages], before the loop starts. *)
Theorem iterate_pagerank_empty (fuel : nat) (d : Q) :
  iterate_pagerank fuel [] d = Some (Raises ZeroDivisionError).
Proof. reflexivity. Qed.

(** X10: what [iterate_pagerank] returns is a probability distribution
    over the pages of the corpus: the keys are those of the corpus in
    its order, the values add up to one, and every value lies between
    [(1 - d) / N] and 1. *)
Theorem iterate_pagerank_distribution (fuel : nat) (c : corpus_t) (d : Q)
  (r : dict Q) :
  wf_dict c -> wf_sets c -> graph_invariant c -> c <> [] ->
  0 < d -> d < 1 ->
  iterate_pagerank fuel c d = Some (Returns r) ->
  keys r = keys c
  /\ sum (values r) == 1
  /\ forall p, In p (keys c) ->
       exists v, dict_get r p = Returns v
                 /\ (1 - d) / len c <= v /\ v <= 1.
Proof.
  intros Hwf Hsets Hinv Hne Hd0 Hd1 H.
  apply iterate_pagerank_run in H. destruct H as [new [Hrun _]].
  destruct (run_good c d Hwf Hsets Hinv Hne Hd0 Hd1 r Hrun) as [x [-> Hx]].
  split; [apply keys_dict_of|]. split.
  - rewrite sum_dict_of. now destruct Hx.
  - intros p Hp. exists (x p). split.
    + now apply (dict_get_map_pair x).
    + split; [now apply Hx|].
      now apply (good_le_1 c d Hne Hd1 x p).
Qed.

Lemma iterate_pagerank_distribution_witness :
  keys [("A", 1 # 2); ("B", 1 # 2)]%string = keys graph_AB
  /\ sum (values [("A", 1 # 2); ("B", 1 # 2)]%string) == 1
  /\ forall p, In p (keys graph_AB) ->
       exists v, dict_get [("A", 1 # 2); ("B", 1 # 2)]%string p = Returns v
                 /\ (1 - 0.001) / len graph_AB <= v /\ v <= 1.
Proof.
  apply (iterate_pagerank_distribution 1 graph_AB 0.001).
  - unfold wf_dict. simpl.
    repeat (constructor; [simpl; intuition discriminate|]). constructor.
  - intros k ls H. simpl in H.
    destruct H as [H|[H|[]]]; inversion H; subst;
      repeat (constructor; [simpl; intuition discriminate|]); constructor.
  - intros k ls H. simpl in H.
    destruct H as [H|[H|[]]]; inversion H; subst;
      intros x Hx; simpl in *; intuition.
  - discriminate.
  - reflexivity.
  - reflexivity.
  - reflexivity.
Defined.

(** X11: on a non-empty corpus that satisfies the Graph invariant, with
    damping strictly between 0 and 1, [iterate_pagerank] raises no
    exception, however many passes it is allowed. *)
Theorem iterate_pagerank_no_error (fuel : nat) (c : corpus_t) (d : Q) (e : exn) :
  wf_dict c -> wf_sets c -> graph_invariant c -> c <> [] ->
  0 < d -> d < 1 ->
  iterate_pagerank fuel c d <> Some (Raises e).
Proof.
  intros Hwf Hsets Hinv Hne Hd0 Hd1. unfold iterate_pagerank.
  rewrite (initial_ranks_dict_of c Hwf Hne).
  apply (iterate_loop_no_raise c d Hwf Hsets Hinv Hne Hd0 Hd1).
  now apply initial_good.
Qed.

Lemma iterate_pagerank_no_error_witness :
  iterate_pagerank 5 pages DAMPING <> Some (Raises ZeroDivisionError).
Proof.
  apply (iterate_pagerank_no_error 5 pages DAMPING ZeroDivisionError).
  - exact wf_dict_pages.
  - exact wf_sets_pages.
  - exact graph_invariant_pages.
  - discriminate.
  - reflexivity.
  - reflexivity.
Defined.





(** X14: when [iterate_pagerank] returns, the pass that declared
    convergence changed the rank of no page by more than 0.001 times the
    number of other pages. *)
Theorem iterate_pagerank_last_change (fuel : nat) (c : corpus_t) (d : Q)
  (r : dict Q) :
  wf_dict c -> wf_sets c -> graph_invariant c -> c <> [] ->
  0 < d -> d < 1 ->
  iterate_pagerank fuel c d = Some (Returns r) ->
  exists new,
    step c d (len c) r = Returns new
    /\ forall k v1 v2,
         dict_get new k = Returns v1 -> dict_get r k = Returns v2 ->
         Qabs (v1 - v2) <= (len c - 1) * (1 # 1000).
Proof.
  intros Hwf Hsets Hinv Hne Hd0 Hd1 H.
  apply iterate_pagerank_run in H. destruct H as [new [Hrun [Hs Hc]]].
  exists new. split; [assumption|].
  destruct (run_good c d Hwf Hsets Hinv Hne Hd0 Hd1 r Hrun) as [x [-> [Ht _]]].
  rewrite (step_dict_of c d Hwf Hsets Hinv Hne x Ht) in Hs.
  inversion Hs; subst new.
  assert (HL : len c = len (dict_of c x)).
  { unfold len, dict_of. now rewrite length_map, keys_length. }
  rewrite HL. apply check_dict_bound; [| |assumption].
  - now rewrite !keys_dict_of.
  - rewrite !sum_dict_of, Ht.
    now apply (total_next c d Hwf Hsets Hinv Hne).
Qed.

Lemma iterate_pagerank_last_change_witness :
  exists new,
    step graph_AB 0.001 (len graph_AB) [("A", 1 # 2); ("B", 1 # 2)]%string
    = Returns new
    /\ forall k v1 v2,
         dict_get new k = Returns v1 ->
         dict_get [("A", 1 # 2); ("B", 1 # 2)]%string k = Returns v2 ->
         Qabs (v1 - v2) <= (len graph_AB - 1) * (1 # 1000).
Proof.
  apply (iterate_pagerank_last_change 1 graph_AB 0.001).
  - unfold wf_dict. simpl.
    repeat (constructor; [simpl; intuition discriminate|]). constructor.
  - intros k ls H. simpl in H.
    destruct H as [H|[H|[]]]; inversion H; subst;
      repeat (constructor; [simpl; intuition discriminate|]); constructor.
  - intros k ls H. simpl in H.
    destruct H as [H|[H|[]]]; inversion H; subst;
      intros x Hx; simpl in *; intuition.
  - discriminate.
  - reflexivity.
  - reflexivity.
  - reflexivity.
Defined.

(** X15: when the shares every page receives from the pages of the
    corpus add up to one (a corpus without links, a cycle), the first
    pass changes nothing and [iterate_pagerank] returns the rank [1 / N]
    for every page. *)
Theorem iterate_pagerank_uniform (c : corpus_t) (d : Q) (extra : nat) :
  wf_dict c -> wf_sets c -> graph_invariant c -> c <> [] ->
  0 < d -> d < 1 ->
  (forall p, In p (keys c) -> total (fun q => weight c q p) (keys c) == 1) ->
  iterate_pagerank (S extra) c d
  = Some (Returns (map (fun k => (k, 1 / len c)) (keys c))).
Proof.
  intros Hwf Hsets Hinv Hne Hd0 Hd1 Hbal.
  now apply (iterate_pagerank_balanced c d Hwf Hsets Hinv Hne Hd0 Hbal).
Qed.

Lemma iterate_pagerank_uniform_witness :
  iterate_pagerank 1 [ ("A", ["B"]); ("B", ["A"]) ]%string DAMPING
  = Some (Returns (map (fun k => (k, 1 / len [ ("A", ["B"]); ("B", ["A"]) ]%string))
                     (keys [ ("A", ["B"]); ("B", ["A"]) ]%string))).
Proof.
  apply (iterate_pagerank_uniform [ ("A", ["B"]); ("B", ["A"]) ]%string DAMPING 0).
  - unfold wf_dict. simpl.
    repeat (constructor; [simpl; intuition discriminate|]). constructor.
  - intros k ls H. simpl in H.
    destruct H as [H|[H|[]]]; inversion H; subst;
      repeat (constructor; [simpl; intuition discriminate|]); constructor.
  - intros k ls H. simpl in H.
    destruct H as [H|[H|[]]]; inversion H; subst;
      intros x Hx; simpl in *; intuition.
  - discriminate.
  - reflexivity.
  - reflexivity.
  - intros p Hp. simpl in Hp.
    destruct Hp as [Hp|[Hp|[]]]; subst p; vm_compute; reflexivity.
Defined.

(** * Further properties of [sample_pagerank] *)

(** X16: on an empty corpus [sample_pagerank] raises [IndexError], from
    [random.choice], whatever the sample count is. *)
Theorem sample_pagerank_empty (rnd : rng) (d : Q) (n : Z) :
  sample_pagerank rnd [] d n = Raises IndexError.
Proof. unfold sample_pagerank. simpl. now rewrite choice_empty. Qed.

Lemma sample_loop_nonneg (rnd : rng) (c : corpus_t) (d : Q) :
  forall (steps i : nat) (counts counts' : dict Q) (pg : page),
    Forall (fun v => 0 <= v) (values counts) ->
    sample_loop rnd steps i c d counts pg = Returns counts' ->
    Forall (fun v => 0 <= v) (values counts').
Proof.
  induction steps as [|steps IH]; intros i counts counts' pg Hc H.
  - simpl in H. now inversion H; subst.
  - cbn [sample_loop] in H.
    destruct (transition_model c pg d) as [model|e]; [|discriminate].
    cbn [bind] in H.
    destruct (dict_get counts pg) as [v|e] eqn:Ev; [|discriminate].
    cbn [bind] in H.
    destruct (choices rnd i (keys model) (values model)) as [next_page|e];
      [|discriminate].
    cbn [bind] in H.
    apply (IH (S i) (dict_set counts pg (v + 1)) counts' next_page); [|exact H].
    apply dict_set_values_all; [assumption|].
    apply dict_get_Returns_In in Ev.
    rewrite Forall_forall in Hc.
    assert (0 <= v) by (apply Hc; change v with (snd (pg, v)); now apply in_map).
    lra.
Qed.

Lemma sum_ge_member (l : list Q) (x : Q) :
  Forall (fun v => 0 <= v) l -> In x l -> x <= sum l.
Proof.
  induction l as [|y l IH]; intros H Hin; [contradiction|].
  inversion H; subst. rewrite sum_cons.
  assert (0 <= sum l).
  { clear - H3. induction l as [|z l IHl]; [unfold sum; simpl; lra|].
    inversion H3; subst. rewrite sum_cons. specialize (IHl H2). lra. }
  destruct Hin as [->|Hin]; [lra|]. specialize (IH H3 Hin). lra.
Qed.

(** What [sample_pagerank] computes on a well-formed input: the
    starting page, the counters, and the result. *)
Lemma sample_pagerank_result (rnd : rng) (c : corpus_t) (d : Q) (n : Z) :
  uniform rnd ->
  wf_dict c -> graph_invariant c -> c <> [] ->
  0 < d -> d < 1 ->
  (0 < n)%Z ->
  exists pg counts,
    sample_loop rnd (Z.to_nat n) 1 c d (fromkeys (keys c) 0) pg = Returns counts
    /\ keys counts = keys c
    /\ sum (values counts) == inject_Z n
    /\ Forall (fun v => 0 <= v) (values counts)
    /\ sample_pagerank rnd c d n
       = Returns (map (fun kv => (fst kv, snd kv * (1 / sum (values counts))))
                    counts).
Proof.
  intros Hu Hwf Hinv Hne Hd0 Hd1 Hn.
  destruct (choice_In rnd 0 (keys c) Hu (keys_nonempty c Hne)) as [pg [Hpg Hin]].
  assert (Hk0 : keys (fromkeys (keys c) 0) = keys c).
  { rewrite fromkeys_map by exact Hwf. apply keys_map_pair. }
  destruct (sample_loop_counts rnd c d Hwf Hinv Hd0 Hd1 (Z.to_nat n) 1
              (fromkeys (keys c) 0) pg Hk0 Hin) as [counts [Hl [Hk Hs]]].
  assert (Hsum : sum (values counts) == inject_Z n).
  { rewrite Hs, (sum_all_zero _ (fromkeys_values_all (keys c) 0)).
    rewrite Z2Nat.id by lia. lra. }
  assert (Hpos : 0 < inject_Z n).
  { change 0 with (inject_Z 0). rewrite <- Zlt_Qlt. exact Hn. }
  exists pg, counts. repeat split; try assumption.
  - apply (sample_loop_nonneg rnd c d (Z.to_nat n) 1 (fromkeys (keys c) 0)
             counts pg); [|exact Hl].
    eapply Forall_impl; [|apply (fromkeys_values_all (keys c) 0)].
    intros a ->. lra.
  - unfold sample_pagerank. rewrite Hpg. cbn [bind]. rewrite Hl. cbn [bind].
    apply normalize_pure; [unfold wf_dict; now rewrite Hk|lra].
Qed.

Lemma dict_get_map_values {V W : Type} (g : V -> W) (d : dict V) (k : page) (v : V) :
  dict_get d k = Returns v ->
  dict_get (map (fun kv => (fst kv, g (snd kv))) d) k = Returns (g v).
Proof.
  induction d as [|[k' v'] d IH]; simpl; intros H; [discriminate|].
  destruct (page_eqb k k'); [now inversion H|now apply IH].
Qed.

(** X17: every value [sample_pagerank] returns is the counter of its
    page divided by [n], and lies between 0 and 1. *)
Theorem sample_pagerank_values (rnd : rng) (c : corpus_t) (d : Q) (n : Z) :
  uniform rnd ->
  wf_dict c -> graph_invariant c -> c <> [] ->
  0 < d -> d < 1 ->
  (0 < n)%Z ->
  exists pg counts r,
    sample_loop rnd (Z.to_nat n) 1 c d (fromkeys (keys c) 0) pg = Returns counts
    /\ sample_pagerank rnd c d n = Returns r
    /\ forall p, In p (keys c) ->
         exists cnt v,
           dict_get counts p = Returns cnt
           /\ dict_get r p = Returns v
           /\ v == cnt / inject_Z n
           /\ 0 <= v /\ v <= 1.
Proof.
  intros Hu Hwf Hinv Hne Hd0 Hd1 Hn.
  destruct (sample_pagerank_result rnd c d n Hu Hwf Hinv Hne Hd0 Hd1 Hn)
    as [pg [counts [Hl [Hk [Hs [Hnn Hr]]]]]].
  exists pg, counts. eexists. split; [exact Hl|]. split; [exact Hr|].
  intros p Hp. rewrite <- Hk in Hp.
  destruct (dict_get_keys counts p Hp) as [cnt Hcnt].
  exists cnt, (cnt * (1 / sum (values counts))).
  split; [assumption|].
  split; [now apply (dict_get_map_values (fun v => v * (1 / sum (values counts))))|].
  assert (Hpos : 0 < inject_Z n).
  { change 0 with (inject_Z 0). rewrite <- Zlt_Qlt. exact Hn. }
  assert (Hin : In cnt (values counts)).
  { apply dict_get_Returns_In in Hcnt.
    change cnt with (snd (p, cnt)). now apply in_map. }
  assert (H0 : 0 <= cnt) by (rewrite Forall_forall in Hnn; now apply Hnn).
  assert (H1 : cnt <= inject_Z n).
  { rewrite <- Hs. now apply sum_ge_member. }
  assert (E : cnt * (1 / sum (values counts)) == cnt / inject_Z n).
  { rewrite Hs. field. lra. }
  split; [exact E|]. rewrite E. split.
  - apply Qle_shift_div_l; lra.
  - apply Qle_shift_div_r; lra.
Qed.

Lemma sample_pagerank_values_witness :
  exists pg counts r,
    sample_loop rnd_cycle (Z.to_nat 20) 1 pages DAMPING
      (fromkeys (keys pages) 0) pg = Returns counts
    /\ sample_pagerank rnd_cycle pages DAMPING 20 = Returns r
    /\ forall p, In p (keys pages) ->
         exists cnt v,
           dict_get counts p = Returns cnt
           /\ dict_get r p = Returns v
           /\ v == cnt / inject_Z 20
           /\ 0 <= v /\ v <= 1.
Proof.
  apply (sample_pagerank_values rnd_cycle pages DAMPING 20).
  - exact uniform_rnd_cycle.
  - exact wf_dict_pages.
  - exact graph_invariant_pages.
  - discriminate.
  - reflexivity.
  - reflexivity.
  - reflexivity.
Defined.

(** * [crawl] *)

Lemma dict_get_app_absent {V : Type} (d1 d2 : dict V) (k : page) :
  ~ In k (keys d1) -> dict_get (d1 ++ d2) k = dict_get d2 k.
Proof.
  induction d1 as [|[k' v'] d1 IH]; simpl; intros H; [reflexivity|].
  destruct (page_eqb k k') eqn:E.
  - apply page_eqb_eq in E. subst. exfalso. apply H. now left.
  - apply IH. intros Hin. apply H. now right.
Qed.

Lemma crawl_extract_loop (findall : string -> list page)
  (l : list (string * string)) :
  forall acc : corpus_t,
    NoDup (keys acc ++ map fst l) ->
    fold_left (fun pages entry =>
                 if negb (endswith (fst entry) ".html") then pages
                 else dict_set pages (fst entry)
                        (filter (fun link => negb (page_eqb link (fst entry)))
                           (to_set (findall (snd entry)))))
              l acc
    = acc ++ map (fun entry =>
                    (fst entry,
                     filter (fun link => negb (page_eqb link (fst entry)))
                       (to_set (findall (snd entry)))))
               (filter (fun entry => endswith (fst entry) ".html") l).
Proof.
  induction l as [|[f s] l IH]; simpl; intros acc Hnd.
  - now rewrite app_nil_r.
  - destruct (endswith f ".html"); simpl.
    + rewrite dict_set_absent.
      * rewrite IH.
        -- now rewrite <- app_assoc.
        -- rewrite keys_app. simpl. rewrite <- app_assoc. exact Hnd.
      * apply NoDup_remove_2 in Hnd. intros Hin. apply Hnd.
        apply in_or_app. now left.
    + apply IH. now apply NoDup_remove_1 in Hnd.
Qed.

Lemma crawl_extract_pure (findall : string -> list page)
  (directory : list (string * string)) :
  NoDup (map fst directory) ->
  crawl_extract findall directory
  = map (fun entry =>
           (fst entry,
            filter (fun link => negb (page_eqb link (fst entry)))
              (to_set (findall (snd entry)))))
      (filter (fun entry => endswith (fst entry) ".html") directory).
Proof.
  intros H. unfold crawl_extract.
  now rewrite (crawl_extract_loop findall directory []).
Qed.

Lemma crawl_restrict_loop (l : corpus_t) :
  forall pre : corpus_t,
    wf_dict (pre ++ l) ->
    foldM (fun pages filename =>
             links <- dict_get pages filename ;;
             Returns (dict_set pages filename
                        (filter (fun link => mem link (keys pages)) links)))
          (keys l) (pre ++ l)
    = Returns (pre ++ map (fun kv =>
                             (fst kv,
                              filter (fun link => mem link (keys (pre ++ l)))
                                (snd kv))) l).
Proof.
  unfold wf_dict. induction l as [|[k v] l IH]; intros pre Hnd.
  - reflexivity.
  - assert (Hk : ~ In k (keys pre)).
    { rewrite keys_app in Hnd. simpl in Hnd. apply NoDup_remove_2 in Hnd.
      intros Hin. apply Hnd. apply in_or_app. now left. }
    cbn [keys map fst foldM].
    rewrite dict_get_app_absent by assumption.
    simpl dict_get. rewrite page_eqb_refl. cbn [bind].
    rewrite dict_set_app by assumption.
    simpl dict_set. rewrite page_eqb_refl.
    set (v' := filter (fun link => mem link (keys (pre ++ (k, v) :: l))) v).
    assert (Hkeys : keys ((pre ++ [(k, v')]) ++ l) = keys (pre ++ (k, v) :: l)).
    { rewrite <- app_assoc. rewrite !keys_app. reflexivity. }
    change (pre ++ (k, v') :: l) with (pre ++ [(k, v')] ++ l).
    rewrite app_assoc.
    change (map fst l) with (keys l).
    rewrite IH by (rewrite Hkeys; exact Hnd).
    rewrite Hkeys, <- app_assoc. reflexivity.
Qed.

Lemma crawl_restrict_pure (pages0 : corpus_t) :
  wf_dict pages0 ->
  crawl_restrict pages0
  = Returns (map (fun kv =>
                    (fst kv, filter (fun link => mem link (keys pages0)) (snd kv)))
               pages0).
Proof.
  intros H. unfold crawl_restrict. exact (crawl_restrict_loop pages0 [] H).
Qed.

Lemma NoDup_map_filter {A B : Type} (f : A -> B) (t : A -> bool) (l : list A) :
  NoDup (map f l) -> NoDup (map f (filter t l)).
Proof.
  induction l as [|a l IH]; simpl; intros H; [constructor|].
  inversion H as [|? ? Hn Hd]; subst.
  destruct (t a); simpl; [|now apply IH].
  constructor; [|now apply IH].
  intros Hin. apply Hn. apply in_map_iff in Hin.
  destruct Hin as [x [Hx Hin]]. apply filter_In in Hin.
  apply in_map_iff. exists x. tauto.
Qed.

(** The corpus [crawl] builds, entry by entry. *)
Lemma crawl_pure (findall : string -> list page)
  (directory : list (string * string)) :
  NoDup (map fst directory) ->
  crawl findall directory
  = Returns (map (fun entry =>
                    (fst entry,
                     filter (fun link => mem link (html_files directory))
                       (filter (fun link => negb (page_eqb link (fst entry)))
                          (to_set (findall (snd entry))))))
               (filter (fun entry => endswith (fst entry) ".html") directory)).
Proof.
  intros H. unfold crawl. rewrite crawl_extract_pure by assumption.
  rewrite crawl_restrict_pure.
  - rewrite map_map. simpl. f_equal. apply map_ext. intros e. f_equal.
    unfold keys. rewrite map_map. reflexivity.
  - unfold wf_dict, keys. rewrite map_map. simpl.
    now apply NoDup_map_filter.
Qed.

Lemma crawl_wf (findall : string -> list page)
  (directory : list (string * string)) (c : corpus_t) :
  NoDup (map fst directory) ->
  crawl findall directory = Returns c ->
  keys c = html_files directory /\ wf_dict c.
Proof.
  intros H Hc. rewrite crawl_pure in Hc by assumption. inversion Hc; subst c.
  assert (Hk : keys (map (fun entry =>
                    (fst entry,
                     filter (fun link => mem link (html_files directory))
                       (filter (fun link => negb (page_eqb link (fst entry)))
                          (to_set (findall (snd entry))))))
               (filter (fun entry => endswith (fst entry) ".html") directory))
               = html_files directory).
  { unfold keys, html_files. rewrite map_map. reflexivity. }
  split; [exact Hk|]. unfold wf_dict. rewrite Hk.
  now apply NoDup_map_filter.
Qed.

Lemma crawl_entry (findall : string -> list page)
  (directory : list (string * string)) (c : corpus_t) (k : page)
  (ls : list page) :
  NoDup (map fst directory) ->
  crawl findall directory = Returns c ->
  In (k, ls) c ->
  exists contents,
    In (k, contents) directory
    /\ endswith k ".html" = true
    /\ ls = filter (fun link => mem link (html_files directory))
              (filter (fun link => negb (page_eqb link k))
                 (to_set (findall contents))).
Proof.
  intros H Hc Hin. rewrite crawl_pure in Hc by assumption.
  inversion Hc; subst c. apply in_map_iff in Hin.
  destruct Hin as [[f s] [He Hf]]. simpl in He. inversion He; subst.
  apply filter_In in Hf. destruct Hf as [Hf Ht]. exists s. auto.
Qed.

(** X18: for a directory whose entries have distinct names [crawl]
    returns, and the keys of the corpus are the names of the [.html]
    files, in the order of the listing. *)
Theorem crawl_keys (findall : string -> list page)
  (directory : list (string * string)) :
  NoDup (map fst directory) ->
  exists c,
    crawl findall directory = Returns c
    /\ keys c = html_files directory.
Proof.
  intros H. eexists. split; [now apply crawl_pure|].
  unfold keys, html_files. rewrite map_map. reflexivity.
Qed.

Lemma directory_test_distinct : NoDup (map fst directory_test).
Proof.
  simpl. repeat (constructor; [simpl; intuition discriminate|]). constructor.
Qed.

Lemma crawl_keys_witness :
  exists c,
    crawl findall_test directory_test = Returns c
    /\ keys c = html_files directory_test.
Proof.
  apply (crawl_keys findall_test directory_test).
  exact directory_test_distinct.
Defined.

(** X19: the set [crawl] gives an [.html] file holds exactly the links
    found in the file that are not the file itself and that name an
    [.html] file of the directory. *)
Theorem crawl_links (findall : string -> list page)
  (directory : list (string * string)) (f contents : string) :
  NoDup (map fst directory) ->
  In (f, contents) directory ->
  endswith f ".html" = true ->
  exists c ls,
    crawl findall directory = Returns c
    /\ dict_get c f = Returns ls
    /\ forall l, In l ls <->
                 (In l (findall contents) /\ l <> f
                  /\ In l (html_files directory)).
Proof.
  intros H Hin Hf.
  destruct (crawl_keys findall directory H) as [c [Hc Hk]].
  destruct (crawl_wf findall directory c H Hc) as [_ Hwf].
  set (ls := filter (fun link => mem link (html_files directory))
               (filter (fun link => negb (page_eqb link f))
                  (to_set (findall contents)))).
  exists c, ls. split; [assumption|]. split.
  - apply dict_get_In; [assumption|].
    pose proof Hc as Hc'. rewrite crawl_pure in Hc' by assumption.
    inversion Hc'. apply in_map_iff. exists (f, contents).
    split; [reflexivity|]. apply filter_In. auto.
  - intros l. unfold ls, to_set. rewrite !filter_In, nodup_In, mem_In.
    rewrite negb_true_iff, page_eqb_neq. tauto.
Qed.

Lemma crawl_links_witness :
  exists c ls,
    crawl findall_test directory_test = Returns c
    /\ dict_get c "1.html"%string = Returns ls
    /\ forall l, In l ls <->
                 (In l (findall_test "one") /\ l <> "1.html"%string
                  /\ In l (html_files directory_test)).
Proof.
  apply (crawl_links findall_test directory_test "1.html" "one").
  - exact directory_test_distinct.
  - simpl. now left.
  - reflexivity.
Defined.

(** X20: the corpus [crawl] returns is well formed: its keys are
    distinct, no set holds a page twice, every link is a key of the
    corpus (the Graph invariant), and no page links to itself. *)
Theorem crawl_graph (findall : string -> list page)
  (directory : list (string * string)) :
  NoDup (map fst directory) ->
  exists c,
    crawl findall directory = Returns c
    /\ wf_dict c /\ wf_sets c /\ graph_invariant c
    /\ forall k ls, In (k, ls) c -> ~ In k ls.
Proof.
  intros H. destruct (crawl_keys findall directory H) as [c [Hc Hk]].
  destruct (crawl_wf findall directory c H Hc) as [_ Hwf].
  exists c. split; [assumption|]. split; [assumption|].
  split; [|split].
  - intros k ls Hin.
    destruct (crawl_entry findall directory c k ls H Hc Hin) as [s [_ [_ ->]]].
    apply NoDup_filter, NoDup_filter. apply NoDup_nodup.
  - intros k ls Hin l Hl.
    destruct (crawl_entry findall directory c k ls H Hc Hin) as [s [_ [_ ->]]].
    apply filter_In in Hl. destruct Hl as [_ Hl]. apply mem_In in Hl.
    now rewrite Hk.
  - intros k ls Hin Hl.
    destruct (crawl_entry findall directory c k ls H Hc Hin) as [s [_ [_ ->]]].
    apply filter_In in Hl. destruct Hl as [Hl _].
    apply filter_In in Hl. destruct Hl as [_ Hl].
    rewrite page_eqb_refl in Hl. discriminate.
Qed.

Lemma crawl_graph_witness :
  exists c,
    crawl findall_test directory_test = Returns c
    /\ wf_dict c /\ wf_sets c /\ graph_invariant c
    /\ forall k ls, In (k, ls) c -> ~ In k ls.
Proof.
  apply (crawl_graph findall_test directory_test).
  exact directory_test_distinct.
Defined.



(** X22: for a directory without [.html] files [crawl] returns the
    empty corpus, on which the first estimator [main] calls,
    [sample_pagerank], raises [IndexError]. *)
Theorem main_no_html (findall : string -> list page)
  (directory : list (string * string)) (rnd : rng) :
  NoDup (map fst directory) ->
  html_files directory = [] ->
  crawl findall directory = Returns []
  /\ sample_pagerank rnd [] DAMPING SAMPLES = Raises IndexError.
Proof.
  intros H He. split.
  - rewrite crawl_pure by assumption. unfold html_files in He.
    apply map_eq_nil in He. now rewrite He.
  - unfold sample_pagerank. simpl. now rewrite choice_empty.
Qed.

Lemma main_no_html_witness :
  crawl findall_test [("notes.txt", "none")]%string = Returns []
  /\ sample_pagerank rnd_zero [] DAMPING SAMPLES = Raises IndexError.
Proof.
  apply (main_no_html findall_test [("notes.txt", "none")]%string rnd_zero).
  - simpl. repeat (constructor; [simpl; intuition discriminate|]). constructor.
  - reflexivity.
Defined.

(** * The order of a set of links *)

Lemma lsum_Permutation (N : Q) (p : page) :
  forall (c1 c2 : corpus_t) (rs : list Q) (acc : Q),
    Forall2 (fun a b => Permutation (snd a) (snd b)) c1 c2 ->
    lsum (combine (values c1) rs) N p acc
    = lsum (combine (values c2) rs) N p acc.
Proof.
  intros c1 c2 rs acc H. revert rs acc.
  induction H as [|[k1 l1] [k2 l2] c1 c2 Hp _ IH]; intros rs acc.
  - reflexivity.
  - destruct rs as [|r rs]; [reflexivity|]. simpl in Hp. simpl.
    rewrite (mem_Permutation p l1 l2 Hp).
    unfold len. rewrite (Permutation_length Hp). apply IH.
Qed.

Lemma iterate_loop_Permutation (c1 c2 : corpus_t) (d : Q) :
  wf_dict c1 -> keys c1 = keys c2 ->
  Forall2 (fun a b => Permutation (snd a) (snd b)) c1 c2 ->
  forall (fuel : nat) (N : Q) (pr : dict Q),
    keys pr = keys c1 ->
    iterate_loop fuel c1 d N pr = iterate_loop fuel c2 d N pr.
Proof.
  intros Hwf Hk Hp.
  assert (Hwf2 : wf_dict c2) by (unfold wf_dict; now rewrite <- Hk).
  assert (Hstep : forall N pr, keys pr = keys c1 ->
                    step c1 d N pr = step c2 d N pr).
  { intros N pr Hpr. unfold step.
    rewrite (new_ranks_pure c1) by assumption.
    rewrite (new_ranks_pure c2) by (try assumption; congruence).
    rewrite Hk. do 2 f_equal. apply map_ext. intros p.
    now rewrite (lsum_Permutation N p c1 c2). }
  induction fuel as [|fuel IH]; intros N pr Hpr; [reflexivity|].
  cbn [iterate_loop]. rewrite <- (Hstep N pr Hpr).
  destruct (step c1 d N pr) as [new|e] eqn:Hs; [|reflexivity].
  destruct (check_dict new pr); [reflexivity|].
  apply IH. now apply (step_keys c1 d N pr new).
Qed.

(** X23: [iterate_pagerank] does not depend on the order in which the
    sets of links are iterated: two corpora with the same keys whose
    sets hold the same pages give the same outcome. *)
Theorem iterate_pagerank_links_order (fuel : nat) (c1 c2 : corpus_t) (d : Q) :
  wf_dict c1 -> keys c1 = keys c2 ->
  Forall2 (fun a b => Permutation (snd a) (snd b)) c1 c2 ->
  iterate_pagerank fuel c1 d = iterate_pagerank fuel c2 d.
Proof.
  intros Hwf Hk Hp.
  assert (HN : len c1 = len c2) by (rewrite <- !len_keys; now rewrite Hk).
  unfold iterate_pagerank, initial_ranks. rewrite <- HN, <- Hk.
  destruct (pydiv 1 (len c1)) as [r|e]; [|reflexivity]. cbn [bind].
  apply iterate_loop_Permutation; try assumption.
  rewrite fromkeys_map by exact Hwf. apply keys_map_pair.
Qed.

Lemma iterate_pagerank_links_order_witness :
  iterate_pagerank 3 pages DAMPING
  = iterate_pagerank 3
      [ ("1.html", ["3.html"; "2.html"]); ("2.html", ["3.html"]);
        ("3.html", ["2.html"]); ("4.html", []) ]%string
      DAMPING.
Proof.
  apply (iterate_pagerank_links_order 3 pages _ DAMPING).
  - exact wf_dict_pages.
  - reflexivity.
  - repeat constructor.
Defined.

(** * The first sample *)

(** X24: the page [random.choice] starts from is the first one counted:
    with [n = 1] it gets the value 1 and every other page the value 0. *)
Theorem sample_pagerank_first (rnd : rng) (c : corpus_t) (d : Q) :
  uniform rnd ->
  wf_dict c -> graph_invariant c -> c <> [] ->
  0 < d -> d < 1 ->
  exists pg r,
    choice rnd 0 (keys c) = Returns pg
    /\ sample_pagerank rnd c d 1 = Returns r
    /\ forall p, In p (keys c) ->
         exists v, dict_get r p = Returns v
                   /\ v == (if page_eqb p pg then 1 else 0).
Proof.
  intros Hu Hwf Hinv Hne Hd0 Hd1.
  destruct (choice_In rnd 0 (keys c) Hu (keys_nonempty c Hne)) as [pg [Hpg Hin]].
  destruct (transition_model_positive c pg d Hwf Hinv Hin Hd0 Hd1)
    as [model [Hm [Hmk Hmv]]].
  assert (Hpop : keys model <> []).
  { rewrite Hmk. now apply keys_nonempty. }
  assert (Hlen : List.length (values model) = List.length (keys model)).
  { unfold values, keys. now rewrite !length_map. }
  destruct (choices_In rnd 1 (keys model) (values model) Hpop Hlen Hmv)
    as [next_page [Hnext _]].
  set (counts := map (fun k => (k, if page_eqb k pg then 0 + 1 else 0)) (keys c)).
  assert (Hloop : sample_loop rnd (Z.to_nat 1) 1 c d (fromkeys (keys c) 0) pg
                  = Returns counts).
  { change (Z.to_nat 1) with 1%nat. cbn [sample_loop].
    rewrite Hm. cbn [bind]. rewrite fromkeys_map by exact Hwf.
    rewrite (dict_get_map_pair (fun _ => 0) (keys c) pg Hin). cbn [bind].
    rewrite Hnext. cbn [bind]. f_equal.
    now apply (dict_set_map_pair (fun _ => 0)). }
  assert (Hsum : sum (values counts) == 1).
  { unfold counts. rewrite values_map_pair, sum_map.
    rewrite (total_ext _ (fun k => if mem k [pg] then 0 + 1 else 0)).
    - rewrite total_indicator; try exact Hwf.
      + rewrite len_cons, len_nil. lra.
      + constructor; [intros []|constructor].
      + intros x [<-|[]]. exact Hin.
    - intros k _. unfold mem. simpl. rewrite orb_false_r. reflexivity. }
  exists pg. eexists. split; [exact Hpg|]. split.
  - unfold sample_pagerank. rewrite Hpg. cbn [bind]. rewrite Hloop. cbn [bind].
    apply normalize_pure.
    + unfold wf_dict, counts. rewrite keys_map_pair. exact Hwf.
    + lra.
  - intros p Hp. eexists. split.
    + apply (dict_get_map_values (fun v => v * (1 / sum (values counts)))).
      unfold counts.
      apply (dict_get_map_pair (fun k => if page_eqb k pg then 0 + 1 else 0)).
      exact Hp.
    + rewrite Hsum. destruct (page_eqb p pg); field.
Qed.

Lemma sample_pagerank_first_witness :
  exists pg r,
    choice rnd_cycle 0 (keys pages) = Returns pg
    /\ sample_pagerank rnd_cycle pages DAMPING 1 = Returns r
    /\ forall p, In p (keys pages) ->
         exists v, dict_get r p = Returns v
                   /\ v == (if page_eqb p pg then 1 else 0).
Proof.
  apply (sample_pagerank_first rnd_cycle pages DAMPING).
  - exact uniform_rnd_cycle.
  - exact wf_dict_pages.
  - exact graph_invariant_pages.
  - discriminate.
  - reflexivity.
  - reflexivity.
Defined.
